(** * btrfscue: the BTRFS metadata decoder of [btrfs/btrfs.go]

    A shallow embedding of the decoder: every Go struct is a record in a
    module of its own, every [Parse] method is a function in the state
    monad of the parse cursor, and unsigned Go integers are [Z] with the
    wrap-around of each conversion written out.  Go's [int] is taken to be
    64 bits wide. *)

From Stdlib Require Import ZArith List Lia Bool.
From coqutil Require Import Byte Word.LittleEndianList.
Import ListNotations.
Local Open Scope Z_scope.

(** ** Machine integers *)

Definition uint32 (z : Z) : Z := z mod 2 ^ 32.

(** [int64(x)] for an unsigned 64-bit [x]. *)
Definition int64 (z : Z) : Z :=
  let w := z mod 2 ^ 64 in if w <? 2 ^ 63 then w else w - 2 ^ 64.

(** Go's built-in [copy(dst, src)] into a fixed-size array: the first
    [min (len dst) (len src)] elements are overwritten, the rest is kept. *)
Definition copy {A : Type} (dst src : list A) : list A :=
  let moved := firstn (length dst) src in
  moved ++ skipn (length moved) dst.

(** ** The parse cursor *)

Module ParseBuffer.

(** Modelled from the spec: the [ParseBuffer] type of this package is not
    part of [btrfs.go].  The spec describes it as a bounds-checked
    sequential reader over a byte slice with read-and-advance of N raw
    bytes, little-endian fixed-width unsigned reads, the current offset,
    the count of unread bytes and an absolute seek; a read past the end
    of the slice gives a truncated (for raw bytes) or zero-filled (for
    integers) result and never faults.  A read advances the cursor by
    the bytes it really got. *)
Record t : Type := mk { buf : list byte; offset : nat }.

(** Modelled from the spec: the current offset. *)
Definition Offset (b : t) : Z := Z.of_nat (offset b).

(** Modelled from the spec: the absolute seek.  It sets the offset and
    checks nothing; the target may lie past the end. *)
Definition SetOffset (o : Z) (b : t) : t := mk (buf b) (Z.to_nat o).

Definition unread (b : t) : list byte := skipn (offset b) (buf b).

(** Modelled from the spec: the count of unread bytes, 0 once the offset
    is at or past the end. *)
Definition Unread (b : t) : Z := Z.of_nat (length (unread b)).

(** Modelled from the spec: read-and-advance of [n] raw bytes, truncated
    to what is left. *)
Definition Next (n : Z) (b : t) : list byte * t :=
  let data := firstn (Z.to_nat n) (unread b) in
  (data, mk (buf b) (offset b + length data)).

(** Modelled from the spec: the little-endian unsigned reads of 1, 2, 4
    and 8 bytes; bytes missing at the end of the buffer count as zero. *)
Definition NextUint (width : Z) (b : t) : Z * t :=
  let (data, b') := Next width b in (le_combine data, b').

Definition NextUint8 : t -> Z * t := NextUint 1.
Definition NextUint16 : t -> Z * t := NextUint 2.
Definition NextUint32 : t -> Z * t := NextUint 4.
Definition NextUint64 : t -> Z * t := NextUint 8.

End ParseBuffer.

(** ** The monad of code that advances a shared cursor *)

Definition M (A : Type) : Type := ParseBuffer.t -> A * ParseBuffer.t.

Definition ret {A : Type} (a : A) : M A := fun b => (a, b).

Definition bind {A B : Type} (m : M A) (k : A -> M B) : M B :=
  fun b => let (a, b') := m b in k a b'.

Declare Scope parse_scope.
Delimit Scope parse_scope with parse.
Notation "x <- m ;; k" := (bind m (fun x => k))
  (at level 61, m at next level, right associativity) : parse_scope.
Notation "m ;;; k" := (bind m (fun _ => k))
  (at level 61, right associativity) : parse_scope.
Local Open Scope parse_scope.

(** [for i := range xs { xs[i].f(b) }]: the elements are visited in order,
    each call sees the cursor the previous one left. *)
Fixpoint forEach {A : Type} (f : A -> M A) (xs : list A) : M (list A) :=
  match xs with
  | [] => ret []
  | x :: rest => x' <- f x ;; rest' <- forEach f rest ;; ret (x' :: rest')
  end.

(** ** Modelled collaborators *)

Module uuid.
(** Modelled from the spec: package [uuid] is not part of [btrfs.go];
    identifiers are fixed 16-byte values. *)
Definition UUIDSize : Z := 16.
Definition UUID : Type := list byte.
Definition zero : UUID := repeat Byte.x00 16.
End uuid.

Module time.
(** Go's [time.Time], as seconds and nanoseconds since the Unix epoch. *)
Record Time : Type := mkTime { sec : Z; nsec : Z }.

(** The zero [Time] is January 1 of year 1. *)
Definition zero : Time := mkTime (-62135596800) 0.

(** [time.Unix(sec, nsec)] normalises [nsec] into [0, 1e9). *)
Definition Unix (s ns : Z) : Time :=
  if (ns <? 0) || (ns >=? 1000000000) then
    let n := Z.quot ns 1000000000 in
    let s1 := int64 (s + n) in
    let ns1 := ns - n * 1000000000 in
    if ns1 <? 0 then mkTime (int64 (s1 - 1)) (ns1 + 1000000000)
    else mkTime s1 ns1
  else mkTime s ns.
End time.

(** ** Constants *)

Definition DefaultBlockSize : Z := Z.shiftl 1 12.
Definition CSumSize : Z := 32.

Definition InodeItemKey : Z := 1.
Definition InodeRefKey : Z := 12.
Definition InodeExtrefKey : Z := 13.
Definition XAttrItemKey : Z := 24.
Definition DirItemKey : Z := 84.
Definition DirIndexKey : Z := 96.
Definition ExtentDataKey : Z := 108.
Definition ExtentCSumKey : Z := 128.
Definition RootItemKey : Z := 132.
Definition RootBackRefKey : Z := 144.
Definition RootRefKey : Z := 156.
Definition ExtentItemKey : Z := 168.
Definition BlockGroupItemKey : Z := 192.

Import ParseBuffer.

(** ** Header and Key *)

Module Header.
Record t : Type := mk {
  CSum : list byte;
  FSID : uuid.UUID;
  ByteNr : Z;
  Flags : Z;
  ChunkTreeUUID : uuid.UUID;
  Generation : Z;
  Owner : Z;
  NrItems : Z;
  Level : Z
}.

Definition zero : t :=
  mk (repeat Byte.x00 32) uuid.zero 0 0 uuid.zero 0 0 0 0.

Definition Parse (h : t) : M t :=
  csum <- Next CSumSize ;;
  fsid <- Next uuid.UUIDSize ;;
  byteNr <- NextUint64 ;;
  flags <- NextUint64 ;;
  chunk <- Next uuid.UUIDSize ;;
  generation <- NextUint64 ;;
  owner <- NextUint64 ;;
  nrItems <- NextUint32 ;;
  level <- NextUint8 ;;
  ret (mk (copy (CSum h) csum) (copy (FSID h) fsid) byteNr flags
          (copy (ChunkTreeUUID h) chunk) generation owner nrItems level).

Definition IsLeaf (h : t) : bool := Level h =? 0.
End Header.

Module Key.
Record t : Type := mk { ObjectId : Z; Type_ : Z; Offset : Z }.

Definition zero : t := mk 0 0 0.

Definition Parse (k : t) : M t :=
  objectId <- NextUint64 ;;
  type <- NextUint8 ;;
  offset <- NextUint64 ;;
  ret (mk objectId type offset).
End Key.

(** ** Payload variants *)

Module InodeItem.
Record t : Type := mk {
  Generation : Z;
  Transid : Z;
  Size : Z;
  Nbytes : Z;
  BlockGroup : Z;
  Nlink : Z;
  Uid : Z;
  Gid : Z;
  Mode : Z;
  Rdev : Z;
  Flags : Z;
  Sequence : Z;
  reserved : list Z;
  Atime : time.Time;
  Ctime : time.Time;
  Mtime : time.Time;
  Otime : time.Time
}.

Definition zero : t :=
  mk 0 0 0 0 0 0 0 0 0 0 0 0 (repeat 0 4)
     time.zero time.zero time.zero time.zero.

(** [time.Unix(int64(b.NextUint64()), int64(b.NextUint32()))] *)
Definition NextTime : M time.Time :=
  s <- NextUint64 ;;
  ns <- NextUint32 ;;
  ret (time.Unix (int64 s) ns).

Definition Parse (i : t) : M t :=
  generation <- NextUint64 ;;
  transid <- NextUint64 ;;
  size <- NextUint64 ;;
  nbytes <- NextUint64 ;;
  blockGroup <- NextUint64 ;;
  nlink <- NextUint32 ;;
  uid <- NextUint32 ;;
  gid <- NextUint32 ;;
  mode <- NextUint32 ;;
  rdev <- NextUint64 ;;
  flags <- NextUint64 ;;
  sequence <- NextUint64 ;;
  Next (4 * 8) ;;;
  atime <- NextTime ;;
  ctime <- NextTime ;;
  mtime <- NextTime ;;
  otime <- NextTime ;;
  ret (mk generation transid size nbytes blockGroup nlink uid gid mode
          rdev flags sequence (reserved i) atime ctime mtime otime).
End InodeItem.

Module InodeRefItem.
Record t : Type := mk { Index : Z; NameLen : Z; Name : list byte }.

Definition zero : t := mk 0 0 [].

Definition Parse (i : t) : M t :=
  index <- NextUint64 ;;
  nameLen <- NextUint16 ;;
  let l := nameLen in
  let l := if l >? 255 then 255 else l in
  name <- Next l ;;
  ret (mk index nameLen name).
End InodeRefItem.

Module DirItem.
Record t : Type := mk {
  Location : Key.t;
  TransId : Z;
  DataLen : Z;
  NameLen : Z;
  Type_ : Z;
  Name : list byte;
  Data : list byte
}.

Definition zero : t := mk Key.zero 0 0 0 0 [] [].

Definition Parse (i : t) : M t :=
  location <- Key.Parse (Location i) ;;
  transId <- NextUint64 ;;
  dataLen <- NextUint16 ;;
  nameLen <- NextUint16 ;;
  type <- NextUint8 ;;
  let l := nameLen in
  let l := if l >? 255 then 255 else l in
  name <- Next l ;;
  let l := dataLen in
  let l := if l >? DefaultBlockSize then DefaultBlockSize else l in
  data <- Next l ;;
  ret (mk location transId dataLen nameLen type name data).
End DirItem.

Module BlockGroupItem.
Record t : Type := mk { Used : Z; ChunkObjectId : Z; Flags : Z }.

Definition zero : t := mk 0 0 0.

Definition Parse (i : t) : M t :=
  used <- NextUint64 ;;
  chunkObjectId <- NextUint64 ;;
  flags <- NextUint64 ;;
  ret (mk used chunkObjectId flags).
End BlockGroupItem.

Module FileExtentItem.
Record t : Type := mk {
  Generation : Z;
  RamBytes : Z;
  Compression : Z;
  Encryption : Z;
  OtherEncoding : Z;
  Type_ : Z;
  DiskByteNr : Z;
  DiskNumBytes : Z;
  Offset : Z;
  NumBytes : Z
}.

Definition zero : t := mk 0 0 0 0 0 0 0 0 0 0.

Definition Parse (i : t) : M t :=
  generation <- NextUint64 ;;
  ramBytes <- NextUint64 ;;
  compression <- NextUint8 ;;
  encryption <- NextUint8 ;;
  otherEncoding <- NextUint16 ;;
  type <- NextUint8 ;;
  diskByteNr <- NextUint64 ;;
  diskNumBytes <- NextUint64 ;;
  offset <- NextUint64 ;;
  numBytes <- NextUint64 ;;
  ret (mk generation ramBytes compression encryption otherEncoding type
          diskByteNr diskNumBytes offset numBytes).
End FileExtentItem.

Module CSumItem.
Record t : Type := mk { CSum : Z }.

Definition zero : t := mk 0.

Definition Parse (i : t) : M t :=
  csum <- NextUint8 ;;
  ret (mk csum).
End CSumItem.

Module RootItem.
Record t : Type := mk {
  Inode : InodeItem.t;
  Generation : Z;
  RootDirId : Z;
  ByteNr : Z;
  ByteLimit : Z;
  BytesUsed : Z;
  LastSnapshot : Z;
  Flags : Z;
  Refs : Z;
  DropProgress : Key.t;
  DropLevel : Z;
  Level : Z;
  GenerationV2 : Z;
  UUID : uuid.UUID;
  ParentUUID : uuid.UUID;
  ReceivedUUID : uuid.UUID;
  CTransId : Z;
  OTransId : Z;
  STransId : Z;
  RTransId : Z;
  Reserved : list Z
}.

Definition zero : t :=
  mk InodeItem.zero 0 0 0 0 0 0 0 0 Key.zero 0 0 0
     uuid.zero uuid.zero uuid.zero 0 0 0 0 (repeat 0 8).

(** The reads up to and including [GenerationV2].  [BytesUsed] is never
    assigned: the field read after [ByteLimit] is [LastSnapshot]. *)
Definition ParseFixed (i : t) : M t :=
  inode <- InodeItem.Parse (Inode i) ;;
  generation <- NextUint64 ;;
  rootDirId <- NextUint64 ;;
  byteNr <- NextUint64 ;;
  byteLimit <- NextUint64 ;;
  lastSnapshot <- NextUint64 ;;
  flags <- NextUint64 ;;
  refs <- NextUint32 ;;
  dropProgress <- Key.Parse (DropProgress i) ;;
  dropLevel <- NextUint8 ;;
  level <- NextUint8 ;;
  generationV2 <- NextUint64 ;;
  ret (mk inode generation rootDirId byteNr byteLimit (BytesUsed i)
          lastSnapshot flags refs dropProgress dropLevel level
          generationV2 (UUID i) (ParentUUID i) (ReceivedUUID i)
          (CTransId i) (OTransId i) (STransId i) (RTransId i)
          (Reserved i)).

(** The body of [if i.Generation == i.GenerationV2]. *)
Definition ParseExtension (i : t) : M t :=
  u <- Next uuid.UUIDSize ;;
  parent <- Next uuid.UUIDSize ;;
  received <- Next uuid.UUIDSize ;;
  cTransId <- NextUint64 ;;
  oTransId <- NextUint64 ;;
  sTransId <- NextUint64 ;;
  rTransId <- NextUint64 ;;
  reserved <- forEach (fun _ => NextUint64) (Reserved i) ;;
  ret (mk (Inode i) (Generation i) (RootDirId i) (ByteNr i) (ByteLimit i)
          (BytesUsed i) (LastSnapshot i) (Flags i) (Refs i)
          (DropProgress i) (DropLevel i) (Level i) (GenerationV2 i)
          (copy (UUID i) u) (copy (ParentUUID i) parent)
          (copy (ReceivedUUID i) received)
          cTransId oTransId sTransId rTransId reserved).

Definition Parse (i : t) : M t :=
  i <- ParseFixed i ;;
  if Generation i =? GenerationV2 i then ParseExtension i else ret i.
End RootItem.

Module RootRef.
Record t : Type := mk {
  DirId : Z; Sequence : Z; NameLen : Z; Name : list byte
}.

Definition zero : t := mk 0 0 0 [].

Definition Parse (i : t) : M t :=
  dirId <- NextUint64 ;;
  sequence <- NextUint64 ;;
  nameLen <- NextUint16 ;;
  let l := nameLen in
  let l := if l >? 255 then 255 else l in
  name <- Next l ;;
  ret (mk dirId sequence nameLen name).
End RootRef.

Module ExtentItem.
Record t : Type := mk { Refs : Z; Generation : Z; Flags : Z }.

Definition zero : t := mk 0 0 0.

Definition Parse (i : t) : M t :=
  refs <- NextUint64 ;;
  generation <- NextUint64 ;;
  flags <- NextUint64 ;;
  ret (mk refs generation flags).
End ExtentItem.

(** ** Item and Leaf *)

(** The [itemData] interface is closed over the nine payload shapes that
    [Item.ParseData] ever stores; its one method dispatches on the shape. *)
Inductive itemData : Type :=
| InodeItemData (d : InodeItem.t)
| InodeRefItemData (d : InodeRefItem.t)
| DirItemData (d : DirItem.t)
| FileExtentItemData (d : FileExtentItem.t)
| CSumItemData (d : CSumItem.t)
| RootItemData (d : RootItem.t)
| RootRefData (d : RootRef.t)
| ExtentItemData (d : ExtentItem.t)
| BlockGroupItemData (d : BlockGroupItem.t).

Definition itemData_Parse (d : itemData) : M itemData :=
  match d with
  | InodeItemData x => x' <- InodeItem.Parse x ;; ret (InodeItemData x')
  | InodeRefItemData x =>
      x' <- InodeRefItem.Parse x ;; ret (InodeRefItemData x')
  | DirItemData x => x' <- DirItem.Parse x ;; ret (DirItemData x')
  | FileExtentItemData x =>
      x' <- FileExtentItem.Parse x ;; ret (FileExtentItemData x')
  | CSumItemData x => x' <- CSumItem.Parse x ;; ret (CSumItemData x')
  | RootItemData x => x' <- RootItem.Parse x ;; ret (RootItemData x')
  | RootRefData x => x' <- RootRef.Parse x ;; ret (RootRefData x')
  | ExtentItemData x => x' <- ExtentItem.Parse x ;; ret (ExtentItemData x')
  | BlockGroupItemData x =>
      x' <- BlockGroupItem.Parse x ;; ret (BlockGroupItemData x')
  end.

Module Item.
Record t : Type := mk {
  Key : Key.t;
  Offset : Z;
  Size : Z;
  Data : option itemData
}.

Definition zero : t := mk Key.zero 0 0 None.

Definition Parse (i : t) : M t :=
  key <- Key.Parse (Key i) ;;
  offset <- NextUint32 ;;
  size <- NextUint32 ;;
  ret (mk key offset size (Data i)).

(** The [switch i.Type]: the fresh payload the tag selects, [None] for
    the [default] branch. *)
Definition fresh (type : Z) : option itemData :=
  if type =? InodeItemKey then Some (InodeItemData InodeItem.zero)
  else if type =? InodeRefKey then
    Some (InodeRefItemData InodeRefItem.zero)
  else if (type =? XAttrItemKey) || (type =? DirItemKey)
          || (type =? DirIndexKey) then Some (DirItemData DirItem.zero)
  else if type =? ExtentDataKey then
    Some (FileExtentItemData FileExtentItem.zero)
  else if type =? ExtentCSumKey then Some (CSumItemData CSumItem.zero)
  else if type =? RootItemKey then Some (RootItemData RootItem.zero)
  else if (type =? RootBackRefKey) || (type =? RootRefKey) then
    Some (RootRefData RootRef.zero)
  else if type =? ExtentItemKey then
    Some (ExtentItemData ExtentItem.zero)
  else if type =? BlockGroupItemKey then
    Some (BlockGroupItemData BlockGroupItem.zero)
  else None.

Definition ParseData (i : t) : M t :=
  match fresh (Key.Type_ (Key i)) with
  | Some d =>
      d' <- itemData_Parse d ;;
      ret (mk (Key i) (Offset i) (Size i) (Some d'))
  | None => ret i
  end.
End Item.

Module Leaf.
Record t : Type := mk { Header : Header.t; Items : list Item.t }.

(** [maxItems := b.Unread() / 0x19], a division of Go [int]s. *)
Definition maxItems (b : ParseBuffer.t) : Z := Z.quot (Unread b) 0x19.

(** [numItems], after the clamp against [uint32(maxItems)]. *)
Definition numItems (l : t) (b : ParseBuffer.t) : Z :=
  let numItems := Header.NrItems (Header l) in
  if numItems >? uint32 (maxItems b) then uint32 (maxItems b)
  else numItems.

(** The target of [b.SetOffset(int(headerEnd + item.Offset))]: the sum is
    taken in [uint32]. *)
Definition seekTarget (headerEnd : Z) (item : Item.t) : Z :=
  uint32 (headerEnd + Item.Offset item).

(** One turn of the second loop. *)
Definition resolve (headerEnd : Z) (item : Item.t) : M Item.t :=
  fun b => Item.ParseData item (SetOffset (seekTarget headerEnd item) b).

Definition Parse (l : t) : M t :=
  if Header.NrItems (Header l) =? 0 then ret l
  else fun b =>
    let headerEnd := uint32 (Offset b) in
    let n := numItems l b in
    let items := repeat Item.zero (Z.to_nat n) in
    (items <- forEach Item.Parse items ;;
     items <- forEach (resolve headerEnd) items ;;
     ret (mk (Header l) items)) b.
End Leaf.

(** ** Notions used to state the properties *)

(** No [Parse] method writes to the byte slice: the buffer a computation
    leaves behind is the one it was given. *)
Definition keeps_buf {A : Type} (m : M A) : Prop :=
  forall b, buf (snd (m b)) = buf b.

(** The item descriptors of the first loop of [Leaf.Parse], before any
    payload is resolved. *)
Definition descriptors (l : Leaf.t) (b : ParseBuffer.t) : list Item.t :=
  fst (forEach Item.Parse
         (repeat Item.zero (Z.to_nat (Leaf.numItems l b))) b).

(** The type tags with a [case] in the [switch] of [Item.ParseData]. *)
Definition knownTags : list Z :=
  [InodeItemKey; InodeRefKey; XAttrItemKey; DirItemKey; DirIndexKey;
   ExtentDataKey; ExtentCSumKey; RootItemKey; RootBackRefKey; RootRefKey;
   ExtentItemKey; BlockGroupItemKey].

(** [peek b c n]: the [n] bytes that lie [c] bytes ahead of the cursor
    (fewer where the buffer ends before). *)
Definition peek (b : ParseBuffer.t) (c n : Z) : list byte :=
  firstn (Z.to_nat n) (skipn (Z.to_nat c) (unread b)).

(** [seek_fwd b c]: the cursor after reads that asked for [c] bytes in
    all; it stops at the end of the buffer. *)
Definition seek_fwd (b : ParseBuffer.t) (c : Z) : ParseBuffer.t :=
  ParseBuffer.mk (buf b) (offset b + Nat.min (Z.to_nat c) (length (unread b))).

(** [time.Unix] of the 12 bytes of an on-disk timestamp that lie [c] bytes
    ahead of the cursor. *)
Definition timeAt (b : ParseBuffer.t) (c : Z) : time.Time :=
  time.Unix (int64 (le_combine (peek b c 8))) (le_combine (peek b (c + 8) 4)).

(** The inode item whose 160 bytes begin [c] bytes ahead of the cursor. *)
Definition inodeAt (i : InodeItem.t) (b : ParseBuffer.t) (c : Z)
  : InodeItem.t :=
  InodeItem.mk
    (le_combine (peek b c 8)) (le_combine (peek b (c + 8) 8))
    (le_combine (peek b (c + 16) 8)) (le_combine (peek b (c + 24) 8))
    (le_combine (peek b (c + 32) 8)) (le_combine (peek b (c + 40) 4))
    (le_combine (peek b (c + 44) 4)) (le_combine (peek b (c + 48) 4))
    (le_combine (peek b (c + 52) 4)) (le_combine (peek b (c + 56) 8))
    (le_combine (peek b (c + 64) 8)) (le_combine (peek b (c + 72) 8))
    (InodeItem.reserved i)
    (timeAt b (c + 112)) (timeAt b (c + 124)) (timeAt b (c + 136))
    (timeAt b (c + 148)).

(** What a payload decoded from an exhausted cursor looks like: every
    field zero or empty; the inode timestamps are [time.Unix(0, 0)], the
    epoch, not Go's zero [Time]. *)
Definition epoch : time.Time := time.mkTime 0 0.

Definition inodeAtEnd : InodeItem.t :=
  InodeItem.mk 0 0 0 0 0 0 0 0 0 0 0 0 (repeat 0 4) epoch epoch epoch epoch.

Definition rootItemAtEnd : RootItem.t :=
  RootItem.mk inodeAtEnd 0 0 0 0 0 0 0 0 Key.zero 0 0 0
    uuid.zero uuid.zero uuid.zero 0 0 0 0 (repeat 0 8).

Definition payloadAtEnd (type : Z) : option itemData :=
  match Item.fresh type with
  | Some (InodeItemData _) => Some (InodeItemData inodeAtEnd)
  | Some (RootItemData _) => Some (RootItemData rootItemAtEnd)
  | other => other
  end.

(** ** Sample blocks *)

(** A root item as the filesystem lays it out: inode item, generation 5,
    root directory 256, tree address 0x1000000, byte limit 0, bytes used
    4096, last snapshot 7, flags 0, one reference, a zero drop-progress
    key, levels 0, second generation 5, and a zero extension block. *)
Definition sampleRootItem : list byte :=
  repeat Byte.x00 160
  ++ le_split 8 5 ++ le_split 8 256 ++ le_split 8 0x1000000
  ++ le_split 8 0 ++ le_split 8 4096 ++ le_split 8 7 ++ le_split 8 0
  ++ le_split 4 1 ++ repeat Byte.x00 17 ++ [Byte.x00; Byte.x00]
  ++ le_split 8 5 ++ repeat Byte.x00 144.

(** A block with a header that declares one item, the descriptor of that
    item (object id 256, the given type tag, data offset and size) and the
    given bytes after the descriptor. *)
Definition sampleBlock (type dataOffset dataSize : Z) (rest : list byte)
  : list byte :=
  repeat Byte.x00 96 ++ le_split 4 1 ++ [Byte.x00]
  ++ le_split 8 256 ++ le_split 1 type ++ le_split 8 0
  ++ le_split 4 dataOffset ++ le_split 4 dataSize
  ++ rest.

(** The header of a fresh leaf with the given declared item count. *)
Definition headerOf (nrItems : Z) : Header.t :=
  Header.mk (repeat Byte.x00 32) uuid.zero 0 0 uuid.zero 0 0 nrItems 0.

(** A root item as [RootItem.Parse] reads it, with both generations 5
    where the decoder looks for them (distances 160 and 231), followed by
    three UUIDs, the transaction ids 1 to 4 and eight reserved words. *)
Definition sampleExtendedRootItem : list byte :=
  repeat Byte.x00 160
  ++ le_split 8 5 ++ repeat Byte.x00 63 ++ le_split 8 5
  ++ repeat Byte.x11 16 ++ repeat Byte.x22 16 ++ repeat Byte.x33 16
  ++ le_split 8 1 ++ le_split 8 2 ++ le_split 8 3 ++ le_split 8 4
  ++ repeat Byte.x00 64.

(** A directory item that declares a name and inline data of 65535 bytes
    each, in front of 5000 bytes. *)
Definition sampleDirItem : list byte :=
  repeat Byte.x00 25 ++ le_split 2 0xFFFF ++ le_split 2 0xFFFF ++ [Byte.x01]
  ++ repeat Byte.x61 5000.

(** The way the caller decodes a block: [Header.Parse] into a fresh
    header, then [Leaf.Parse] on a leaf that holds it.  [parsedHeader] is
    the leaf before the second call, [afterHeader] the cursor. *)
Definition parsedHeader (bytes : list byte) : Leaf.t :=
  Leaf.mk (fst (Header.Parse Header.zero (ParseBuffer.mk bytes 0))) [].

Definition afterHeader (bytes : list byte) : ParseBuffer.t :=
  snd (Header.Parse Header.zero (ParseBuffer.mk bytes 0)).

(** ** Object ids *)

(** [^uint64(n) + 1], an untyped constant expression evaluated in
    [uint64]. *)
Definition uint64 (z : Z) : Z := z mod 2 ^ 64.

Definition negated (n : Z) : Z := uint64 (uint64 (Z.lnot n) + 1).

Definition RootTreeObjectId : Z := 1.
Definition ExtentTreeObjectId : Z := 2.
Definition ChunkTreeObjectId : Z := 3.
Definition DevTreeObjectId : Z := 4.
Definition FSTreeObjectId : Z := 5.
Definition RootTreeDirObjectId : Z := 6.
Definition CSumTreeObjectId : Z := 7.
Definition OrphanObjectId : Z := negated 5.
Definition TreeLogObjectId : Z := negated 6.
Definition TreeLogFixupObjectId : Z := negated 7.
Definition TreeRelocObjectId : Z := negated 8.
Definition DataRelocTreeObjectId : Z := negated 9.
Definition ExtentCSumObjectId : Z := negated 10.
Definition FreeSpaceObjectId : Z := negated 11.
Definition MultipleObjectIdS : Z := negated 255.
Definition FirstFreeObjectId : Z := 256.
Definition LastFreeObjectId : Z := negated 256.
Definition FirstChunkTreeObjectId : Z := 256.
Definition DevItemsObjectId : Z := 1.
Definition BtreeInodeObjectId : Z := 1.
Definition EmptySubvolDirObjectId : Z := 2.

(** The ids the package names for trees and special objects. *)
Definition wellKnownObjectIds : list Z :=
  [RootTreeObjectId; ExtentTreeObjectId; ChunkTreeObjectId; DevTreeObjectId;
   FSTreeObjectId; RootTreeDirObjectId; CSumTreeObjectId; OrphanObjectId;
   TreeLogObjectId; TreeLogFixupObjectId; TreeRelocObjectId;
   DataRelocTreeObjectId; ExtentCSumObjectId; FreeSpaceObjectId;
   MultipleObjectIdS; DevItemsObjectId; BtreeInodeObjectId;
   EmptySubvolDirObjectId].

(** ** Notions used to state further properties *)

(** The cursor at the first byte of the buffer of [b]. *)
Definition start (b : ParseBuffer.t) : ParseBuffer.t :=
  ParseBuffer.mk (buf b) 0.

(** The key whose 17 bytes begin [c] bytes ahead of the cursor. *)
Definition keyAt (b : ParseBuffer.t) (c : Z) : Key.t :=
  Key.mk (le_combine (peek b c 8)) (le_combine (peek b (c + 8) 1))
         (le_combine (peek b (c + 9) 8)).

(** The item descriptor whose 25 bytes begin [c] bytes ahead of the
    cursor, with the payload [data]. *)
Definition itemAt (data : option itemData) (b : ParseBuffer.t) (c : Z)
  : Item.t :=
  Item.mk (keyAt b c) (le_combine (peek b (c + 17) 4))
          (le_combine (peek b (c + 21) 4)) data.

(** The length a declared length is clamped to. *)
Definition clamp (declared cap : Z) : Z :=
  if declared >? cap then cap else declared.

(** The time with the given nanoseconds and the seconds word [s] read as
    a signed 64-bit number. *)
Definition plainTime (s ns : Z) : time.Time :=
  time.mkTime (if s <? 2 ^ 63 then s else s - 2 ^ 64) ns.

(** A root item with its fields in the order of the struct [RootItem], as
    the filesystem lays it out: inode item (distance 0), generation (160),
    root directory 256 (168), tree address (176), byte limit (184), bytes
    used 4096 (192), last snapshot 7 (200), flags (208), one reference
    (216), drop progress key with the given offset (220), drop level and
    level (237, 238), second generation (239), then the extension block:
    UUIDs of bytes 0x11, 0x22 and 0x33 (247, 263, 279), transaction ids 1
    to 4 (295 to 319) and eight reserved words (327), 391 bytes in all. *)
Definition diskRootItem (generation dropOffset generationV2 : Z)
  : list byte :=
  repeat Byte.x00 160
  ++ le_split 8 generation ++ le_split 8 256 ++ le_split 8 0x1000000
  ++ le_split 8 0 ++ le_split 8 4096 ++ le_split 8 7 ++ le_split 8 0
  ++ le_split 4 1
  ++ le_split 8 0 ++ [Byte.x00] ++ le_split 8 dropOffset
  ++ [Byte.x00; Byte.x00]
  ++ le_split 8 generationV2
  ++ repeat Byte.x11 16 ++ repeat Byte.x22 16 ++ repeat Byte.x33 16
  ++ le_split 8 1 ++ le_split 8 2 ++ le_split 8 3 ++ le_split 8 4
  ++ repeat Byte.x00 64.

(** * Properties *)

(** ** The cursor *)

Lemma Unread_nonneg (b : ParseBuffer.t) : 0 <= Unread b.
Proof. unfold Unread. lia. Qed.

Lemma Unread_eq (b : ParseBuffer.t) :
  Unread b = Z.max 0 (Z.of_nat (length (buf b)) - Offset b).
Proof.
  unfold Unread, unread, Offset. rewrite length_skipn. lia.
Qed.

Lemma Next_buf (n : Z) (b : ParseBuffer.t) : buf (snd (Next n b)) = buf b.
Proof. reflexivity. Qed.

Lemma Next_length (n : Z) (b : ParseBuffer.t) :
  Z.of_nat (length (fst (Next n b))) = Z.min (Z.max 0 n) (Unread b).
Proof.
  unfold Next, Unread. cbn [fst]. rewrite length_firstn. lia.
Qed.

Lemma Next_Offset (n : Z) (b : ParseBuffer.t) :
  Offset (snd (Next n b)) = Offset b + Z.min (Z.max 0 n) (Unread b).
Proof.
  unfold Next, Unread, Offset. cbn [snd offset].
  rewrite length_firstn. lia.
Qed.

Lemma NextUint_range (w : Z) (b : ParseBuffer.t) :
  0 <= w -> 0 <= fst (NextUint w b) < 2 ^ (8 * w).
Proof.
  intros Hw. unfold NextUint.
  pose proof (Next_length w b) as Hlen.
  destruct (Next w b) as [data b']. cbn [fst] in *.
  pose proof (le_combine_bound data) as Hb.
  assert (2 ^ (8 * Z.of_nat (length data)) <= 2 ^ (8 * w)).
  { apply Z.pow_le_mono_r; lia. }
  lia.
Qed.

(** ** Code that only moves the cursor *)

Lemma keeps_buf_ret {A : Type} (a : A) : keeps_buf (ret a).
Proof. intros b. reflexivity. Qed.

Lemma keeps_buf_bind {A B : Type} (m : M A) (k : A -> M B) :
  keeps_buf m -> (forall a, keeps_buf (k a)) -> keeps_buf (bind m k).
Proof.
  intros Hm Hk b. unfold bind.
  specialize (Hm b). destruct (m b) as [a b1]. cbn [snd] in Hm.
  rewrite (Hk a b1). exact Hm.
Qed.

Lemma keeps_buf_Next (n : Z) : keeps_buf (Next n).
Proof. intros b. reflexivity. Qed.

Lemma keeps_buf_NextUint (w : Z) : keeps_buf (NextUint w).
Proof. intros b. reflexivity. Qed.

Lemma keeps_buf_NextUint8 : keeps_buf NextUint8.
Proof. exact (keeps_buf_NextUint 1). Qed.

Lemma keeps_buf_NextUint16 : keeps_buf NextUint16.
Proof. exact (keeps_buf_NextUint 2). Qed.

Lemma keeps_buf_NextUint32 : keeps_buf NextUint32.
Proof. exact (keeps_buf_NextUint 4). Qed.

Lemma keeps_buf_NextUint64 : keeps_buf NextUint64.
Proof. exact (keeps_buf_NextUint 8). Qed.

Lemma keeps_buf_if {A : Type} (c : bool) (m1 m2 : M A) :
  keeps_buf m1 -> keeps_buf m2 -> keeps_buf (if c then m1 else m2).
Proof. destruct c; auto. Qed.

Lemma keeps_buf_forEach {A : Type} (f : A -> M A) (xs : list A) :
  (forall x, keeps_buf (f x)) -> keeps_buf (forEach f xs).
Proof.
  intros Hf. induction xs as [|x rest IH]; cbn [forEach].
  - apply keeps_buf_ret.
  - apply keeps_buf_bind; [apply Hf|]. intros x'.
    apply keeps_buf_bind; [exact IH|]. intros rest'. apply keeps_buf_ret.
Qed.

Create HintDb keeps_buf.

Ltac keeps_buf :=
  repeat lazymatch goal with
  | |- keeps_buf (ret _) => apply keeps_buf_ret
  | |- keeps_buf (bind _ _) => apply keeps_buf_bind; [|intro]
  | |- keeps_buf (Next _) => apply keeps_buf_Next
  | |- keeps_buf NextUint8 => apply keeps_buf_NextUint8
  | |- keeps_buf NextUint16 => apply keeps_buf_NextUint16
  | |- keeps_buf NextUint32 => apply keeps_buf_NextUint32
  | |- keeps_buf NextUint64 => apply keeps_buf_NextUint64
  | |- keeps_buf (if _ then _ else _) => apply keeps_buf_if
  | |- keeps_buf (forEach _ _) => apply keeps_buf_forEach; intro
  | |- keeps_buf _ => solve [auto 1 with keeps_buf nocore]
  end.

Lemma keeps_buf_Key (k : Key.t) : keeps_buf (Key.Parse k).
Proof. unfold Key.Parse. keeps_buf. Qed.
#[export] Hint Resolve keeps_buf_Key : keeps_buf.

Lemma keeps_buf_NextTime : keeps_buf InodeItem.NextTime.
Proof. unfold InodeItem.NextTime. keeps_buf. Qed.
#[export] Hint Resolve keeps_buf_NextTime : keeps_buf.

Lemma keeps_buf_InodeItem (i : InodeItem.t) : keeps_buf (InodeItem.Parse i).
Proof. unfold InodeItem.Parse. keeps_buf. Qed.
#[export] Hint Resolve keeps_buf_InodeItem : keeps_buf.

Lemma keeps_buf_itemData (d : itemData) : keeps_buf (itemData_Parse d).
Proof.
  destruct d; cbn [itemData_Parse];
    unfold InodeRefItem.Parse, DirItem.Parse, FileExtentItem.Parse,
      CSumItem.Parse, RootItem.Parse, RootItem.ParseFixed,
      RootItem.ParseExtension, RootRef.Parse, ExtentItem.Parse,
      BlockGroupItem.Parse; keeps_buf.
Qed.

Lemma keeps_buf_Item (i : Item.t) : keeps_buf (Item.Parse i).
Proof. unfold Item.Parse. keeps_buf. Qed.

Lemma keeps_buf_ParseData (i : Item.t) : keeps_buf (Item.ParseData i).
Proof.
  unfold Item.ParseData. destruct (Item.fresh _).
  - apply keeps_buf_bind; [apply keeps_buf_itemData|].
    intro. apply keeps_buf_ret.
  - apply keeps_buf_ret.
Qed.

(** ** Loops over the items *)

Lemma forEach_length {A : Type} (f : A -> M A) (xs : list A) b :
  length (fst (forEach f xs b)) = length xs.
Proof.
  revert b. induction xs as [|x rest IH]; intros b; cbn [forEach].
  - reflexivity.
  - unfold bind at 1. destruct (f x b) as [x' b1].
    unfold bind at 1. specialize (IH b1).
    destruct (forEach f rest b1) as [rest' b2].
    cbn [ret fst length] in *. now rewrite IH.
Qed.

Lemma forEach_cons {A : Type} (f : A -> M A) (x : A) rest b :
  fst (forEach f (x :: rest) b) =
  fst (f x b) :: fst (forEach f rest (snd (f x b))).
Proof.
  cbn [forEach]. unfold bind at 1. destruct (f x b) as [x' b1].
  unfold bind at 1. cbn [fst snd].
  destruct (forEach f rest b1) as [rest' b2]. reflexivity.
Qed.

Lemma SetOffset_same_buf (o : Z) (b1 b2 : ParseBuffer.t) :
  buf b1 = buf b2 -> SetOffset o b1 = SetOffset o b2.
Proof. intros H. unfold SetOffset. now rewrite H. Qed.

Lemma resolve_same_buf (headerEnd : Z) (d : Item.t) b1 b2 :
  buf b1 = buf b2 -> Leaf.resolve headerEnd d b1 = Leaf.resolve headerEnd d b2.
Proof.
  intros H. unfold Leaf.resolve.
  now rewrite (SetOffset_same_buf _ b1 b2 H).
Qed.

Lemma keeps_buf_resolve (headerEnd : Z) (d : Item.t) :
  keeps_buf (Leaf.resolve headerEnd d).
Proof.
  intros b. unfold Leaf.resolve. now rewrite keeps_buf_ParseData.
Qed.

(** The second loop treats every item on its own: what one item's payload
    becomes is decided by the buffer, [headerEnd] and that item alone. *)
Lemma forEach_resolve (headerEnd : Z) (items : list Item.t) b1 b :
  buf b1 = buf b ->
  fst (forEach (Leaf.resolve headerEnd) items b1) =
  map (fun d => fst (Leaf.resolve headerEnd d b)) items.
Proof.
  revert b1. induction items as [|d rest IH]; intros b1 Hbuf.
  - reflexivity.
  - rewrite forEach_cons. cbn [map]. f_equal.
    + now rewrite (resolve_same_buf _ _ b1 b Hbuf).
    + apply IH. now rewrite keeps_buf_resolve.
Qed.

Lemma Leaf_Parse_zero (l : Leaf.t) b :
  Header.NrItems (Leaf.Header l) = 0 -> Leaf.Parse l b = (l, b).
Proof. intros H. unfold Leaf.Parse. now rewrite H. Qed.

Lemma Leaf_Parse_Header (l : Leaf.t) b :
  Leaf.Header (fst (Leaf.Parse l b)) = Leaf.Header l.
Proof.
  unfold Leaf.Parse. destruct (_ =? 0); [reflexivity|].
  unfold bind, ret.
  destruct (forEach Item.Parse _ b) as [ds b1].
  destruct (forEach _ ds b1) as [items b2]. reflexivity.
Qed.

Lemma Leaf_Parse_Items (l : Leaf.t) b :
  Header.NrItems (Leaf.Header l) <> 0 ->
  Leaf.Items (fst (Leaf.Parse l b)) =
  map (fun d => fst (Leaf.resolve (uint32 (Offset b)) d b)) (descriptors l b).
Proof.
  intros H. unfold Leaf.Parse, descriptors.
  apply Z.eqb_neq in H. rewrite H. unfold bind, ret.
  pose proof (keeps_buf_forEach Item.Parse
    (repeat Item.zero (Z.to_nat (Leaf.numItems l b))) keeps_buf_Item b) as Hb.
  destruct (forEach Item.Parse _ b) as [ds b1]. cbn [fst snd] in *.
  rewrite <- (forEach_resolve _ ds b1 b Hb).
  destruct (forEach _ ds b1) as [items b2]. reflexivity.
Qed.

Lemma Leaf_Parse_count (l : Leaf.t) b :
  Header.NrItems (Leaf.Header l) <> 0 ->
  Z.of_nat (length (Leaf.Items (fst (Leaf.Parse l b)))) =
  Z.max 0 (Leaf.numItems l b).
Proof.
  intros H. rewrite Leaf_Parse_Items by exact H.
  rewrite length_map. unfold descriptors.
  rewrite forEach_length, repeat_length. lia.
Qed.

Lemma maxItems_div (b : ParseBuffer.t) : Leaf.maxItems b = Unread b / 25.
Proof.
  unfold Leaf.maxItems. apply Z.quot_div_nonneg; [apply Unread_nonneg|lia].
Qed.

Lemma numItems_le_maxItems (l : Leaf.t) b :
  Leaf.numItems l b <= Unread b / 25.
Proof.
  unfold Leaf.numItems, uint32. rewrite maxItems_div.
  pose proof (Unread_nonneg b).
  assert (0 <= Unread b / 25) by (apply Z.div_pos; lia).
  pose proof (Z.mod_le (Unread b / 25) (2 ^ 32)).
  destruct (_ >? _) eqn:E; lia.
Qed.

Lemma numItems_min (l : Leaf.t) b :
  Unread b / 25 < 2 ^ 32 ->
  Leaf.numItems l b = Z.min (Header.NrItems (Leaf.Header l)) (Unread b / 25).
Proof.
  intros Hsmall. unfold Leaf.numItems, uint32. rewrite maxItems_div.
  pose proof (Unread_nonneg b).
  assert (0 <= Unread b / 25) by (apply Z.div_pos; lia).
  rewrite Z.mod_small by lia.
  destruct (_ >? _) eqn:E; lia.
Qed.

(** ** The number of decoded items *)

(** C1 (as amended).  The number of items [Leaf.Parse] decodes never
    exceeds [Unread / 25], whatever the buffer; and it is exactly
    [min NrItems (Unread / 25)] for every declared count as long as the
    buffer has fewer than [25 * 2^32] unread bytes, so that [Unread / 25]
    survives the conversion to [uint32]. *)
Theorem Leaf_Parse_item_count (h : Header.t) (b : ParseBuffer.t) :
  let n :=
    Z.of_nat (length (Leaf.Items (fst (Leaf.Parse (Leaf.mk h []) b)))) in
  n <= Unread b / 25 /\
  (0 <= Header.NrItems h -> Unread b < 25 * 2 ^ 32 ->
   n = Z.min (Header.NrItems h) (Unread b / 25)).
Proof.
  intros n. subst n.
  pose proof (Unread_nonneg b) as HU.
  assert (0 <= Unread b / 25) as Hq by (apply Z.div_pos; lia).
  destruct (Z.eq_dec (Header.NrItems h) 0) as [H0|H0].
  - rewrite Leaf_Parse_zero by exact H0. cbn [fst Leaf.Items length].
    split; [lia|]. intros _ _. rewrite H0. lia.
  - rewrite Leaf_Parse_count by exact H0.
    pose proof (numItems_le_maxItems (Leaf.mk h []) b) as Hle.
    split; [lia|]. intros Hn Hsmall.
    assert (Unread b / 25 < 2 ^ 32) as Hq32.
    { apply Z.div_lt_upper_bound; lia. }
    rewrite (numItems_min _ _ Hq32). cbn [Leaf.Header]. lia.
Qed.

Lemma Leaf_Parse_item_count_witness :
  let h := headerOf 1000000 in
  let b := ParseBuffer.mk (repeat Byte.xff 80) 0 in
  0 <= Header.NrItems h /\ Unread b < 25 * 2 ^ 32 /\
  Z.of_nat (length (Leaf.Items (fst (Leaf.Parse (Leaf.mk h []) b)))) = 3.
Proof.
  intros h b.
  destruct (Leaf_Parse_item_count h b) as [_ Hmin].
  split; [vm_compute; discriminate|].
  split; [vm_compute; reflexivity|].
  rewrite Hmin; [reflexivity|vm_compute; discriminate|vm_compute; reflexivity].
Defined.

(** C1, as stated, fails on a buffer of [25 * 2^32] unread bytes:
    [uint32(maxItems)] is 0 there, so a leaf that declares one item gets
    none, although [min 1 (Unread / 25)] is 1. *)
Lemma Leaf_Parse_item_count_wraps :
  let h := headerOf 1 in
  let b := ParseBuffer.mk (repeat Byte.x00 (Z.to_nat (25 * 2 ^ 32))) 0 in
  Z.of_nat (length (Leaf.Items (fst (Leaf.Parse (Leaf.mk h []) b)))) <>
  Z.min (Header.NrItems h) (Unread b / 25).
Proof.
  intros h b.
  assert (Unread b = 25 * 2 ^ 32) as HU.
  { unfold Unread, unread, b. cbn [offset buf].
    rewrite skipn_O, repeat_length. apply Z2Nat.id. lia. }
  rewrite Leaf_Parse_count by (cbn [Leaf.Header]; discriminate).
  unfold Leaf.numItems. rewrite maxItems_div, HU.
  cbn [Leaf.Header]. vm_compute. discriminate.
Qed.

(** ** What the leaf decoder does with the header *)

(** C3 (as amended).  [Leaf.Parse] does not decode the header: it keeps the
    header the leaf already holds, and when that header declares no item it
    returns at once, the leaf and the cursor untouched. *)
Theorem Leaf_Parse_keeps_Header (l : Leaf.t) (b : ParseBuffer.t) :
  Leaf.Header (fst (Leaf.Parse l b)) = Leaf.Header l /\
  (Header.NrItems (Leaf.Header l) = 0 -> Leaf.Parse l b = (l, b)).
Proof.
  split; [apply Leaf_Parse_Header|apply Leaf_Parse_zero].
Qed.

Lemma Leaf_Parse_keeps_Header_witness :
  let l := Leaf.mk (headerOf 0) [] in
  let b := ParseBuffer.mk (sampleBlock InodeItemKey 25 0 []) 101 in
  Header.NrItems (Leaf.Header l) = 0 /\ Leaf.Parse l b = (l, b).
Proof.
  intros l b. split; [reflexivity|].
  apply (proj2 (Leaf_Parse_keeps_Header l b)). reflexivity.
Defined.

(** C3, as stated, fails: on a fresh leaf and a block whose header
    declares one item, [Leaf.Parse] leaves the zero header in place,
    decodes no item and does not move the cursor, whereas [Header.Parse]
    at the same cursor reads the declared count 1 and stops at offset
    101. *)
Lemma Leaf_Parse_reads_no_Header :
  let l := Leaf.mk Header.zero [] in
  let b := ParseBuffer.mk (sampleBlock InodeItemKey 25 0 []) 0 in
  Leaf.Header (fst (Leaf.Parse l b)) <> fst (Header.Parse (Leaf.Header l) b)
  /\ Header.NrItems (fst (Header.Parse (Leaf.Header l) b)) = 1
  /\ Offset (snd (Header.Parse (Leaf.Header l) b)) = 101
  /\ Leaf.Parse l b = (l, b).
Proof.
  intros l b. repeat split; try reflexivity.
  intros H. apply (f_equal Header.NrItems) in H. vm_compute in H.
  discriminate.
Qed.

(** ** Sequential reads, by their distance from where decoding began *)

Lemma seek_fwd_0 (b : ParseBuffer.t) : seek_fwd b 0 = b.
Proof.
  destruct b as [bs o]. unfold seek_fwd. cbn [buf offset Z.to_nat Nat.min].
  now rewrite Nat.add_0_r.
Qed.

Lemma unread_seek_fwd (b : ParseBuffer.t) (c : Z) :
  unread (seek_fwd b c) = skipn (Z.to_nat c) (unread b).
Proof.
  unfold seek_fwd, unread. cbn [buf offset].
  rewrite Nat.add_comm, <- skipn_skipn.
  destruct (Nat.le_gt_cases (Z.to_nat c) (length (skipn (offset b) (buf b))))
    as [Hle|Hgt].
  - now rewrite Nat.min_l by exact Hle.
  - rewrite Nat.min_r by lia.
    rewrite !skipn_all2; [reflexivity|lia|lia].
Qed.

Lemma Offset_seek_fwd (b : ParseBuffer.t) (c : Z) :
  0 <= c -> Offset (seek_fwd b c) = Offset b + Z.min c (Unread b).
Proof. intros Hc. unfold Offset, Unread, seek_fwd. cbn [offset]. lia. Qed.

Lemma Next_fwd (b : ParseBuffer.t) (c n : Z) :
  0 <= c -> 0 <= n ->
  Next n (seek_fwd b c) = (peek b c n, seek_fwd b (c + n)).
Proof.
  intros Hc Hn. unfold Next. rewrite unread_seek_fwd. fold (peek b c n).
  f_equal. unfold seek_fwd, peek. cbn [buf offset]. f_equal.
  rewrite length_firstn, length_skipn. lia.
Qed.

Lemma NextUint_fwd (w : Z) (b : ParseBuffer.t) (c : Z) :
  0 <= c -> 0 <= w ->
  NextUint w (seek_fwd b c) = (le_combine (peek b c w), seek_fwd b (c + w)).
Proof. intros Hc Hw. unfold NextUint. now rewrite Next_fwd. Qed.

Lemma NextUint8_fwd (b : ParseBuffer.t) (c : Z) :
  0 <= c ->
  NextUint8 (seek_fwd b c) = (le_combine (peek b c 1), seek_fwd b (c + 1)).
Proof. intros. apply NextUint_fwd; lia. Qed.

Lemma NextUint16_fwd (b : ParseBuffer.t) (c : Z) :
  0 <= c ->
  NextUint16 (seek_fwd b c) = (le_combine (peek b c 2), seek_fwd b (c + 2)).
Proof. intros. apply NextUint_fwd; lia. Qed.

Lemma NextUint32_fwd (b : ParseBuffer.t) (c : Z) :
  0 <= c ->
  NextUint32 (seek_fwd b c) = (le_combine (peek b c 4), seek_fwd b (c + 4)).
Proof. intros. apply NextUint_fwd; lia. Qed.

Lemma NextUint64_fwd (b : ParseBuffer.t) (c : Z) :
  0 <= c ->
  NextUint64 (seek_fwd b c) = (le_combine (peek b c 8), seek_fwd b (c + 8)).
Proof. intros. apply NextUint_fwd; lia. Qed.

Create Rewrite HintDb fwd.
#[export] Hint Rewrite Next_fwd NextUint8_fwd NextUint16_fwd NextUint32_fwd
  NextUint64_fwd using lia : fwd.

(** Runs the reads of a [Parse] body one after the other. *)
Ltac fwd :=
  unfold bind, ret;
  repeat (progress (autorewrite with fwd; cbv beta iota)).

(** Closes an equation between two results that differ only in how the
    distances are bracketed. *)
Ltac same_reads :=
  rewrite <- ?Z.add_assoc;
  cbn [Z.add Pos.add Pos.succ Pos.add_carry];
  reflexivity.

Lemma Key_Parse_fwd (k : Key.t) (b : ParseBuffer.t) (c : Z) :
  0 <= c ->
  Key.Parse k (seek_fwd b c) =
  (Key.mk (le_combine (peek b c 8)) (le_combine (peek b (c + 8) 1))
          (le_combine (peek b (c + 9) 8)),
   seek_fwd b (c + 17)).
Proof. intros Hc. unfold Key.Parse. fwd. same_reads. Qed.

#[export] Hint Rewrite Key_Parse_fwd using lia : fwd.

Lemma Item_Parse_fwd (i : Item.t) (b : ParseBuffer.t) (c : Z) :
  0 <= c ->
  Item.Parse i (seek_fwd b c) =
  (Item.mk (Key.mk (le_combine (peek b c 8)) (le_combine (peek b (c + 8) 1))
                   (le_combine (peek b (c + 9) 8)))
           (le_combine (peek b (c + 17) 4)) (le_combine (peek b (c + 21) 4))
           (Item.Data i),
   seek_fwd b (c + 25)).
Proof. intros Hc. unfold Item.Parse. fwd. same_reads. Qed.

(** C9.  The divisor [0x19] of the item-count clamp is the width of one
    item descriptor: with at least 25 unread bytes, [Item.Parse] reads the
    17-byte key, the 4-byte offset and the 4-byte size, nothing else, and
    leaves the cursor exactly [0x19] = 25 bytes further. *)
Theorem Item_Parse_advances_25 (i : Item.t) (b : ParseBuffer.t) :
  25 <= Unread b ->
  Offset (snd (Item.Parse i b)) = Offset b + 0x19 /\
  Offset (snd (Key.Parse (Item.Key i) b)) = Offset b + 17 /\
  Item.Offset (fst (Item.Parse i b)) = le_combine (peek b 17 4) /\
  Item.Size (fst (Item.Parse i b)) = le_combine (peek b 21 4) /\
  Item.Data (fst (Item.Parse i b)) = Item.Data i /\
  Leaf.maxItems (snd (Item.Parse i b)) = Leaf.maxItems b - 1.
Proof.
  intros HU.
  pose proof (Item_Parse_fwd i b 0 ltac:(lia)) as HI.
  pose proof (Key_Parse_fwd (Item.Key i) b 0 ltac:(lia)) as HK.
  rewrite seek_fwd_0 in HI, HK. cbn [Z.add] in HI, HK.
  rewrite HI, HK. cbn [fst snd Item.Offset Item.Size Item.Data].
  rewrite !Offset_seek_fwd by lia.
  repeat split; try lia.
  rewrite !maxItems_div.
  assert (Unread (seek_fwd b 25) = Unread b + (-1) * 25) as ->.
  { rewrite (Unread_eq (seek_fwd b 25)), Offset_seek_fwd by lia.
    cbn [buf seek_fwd]. rewrite (Unread_eq b) in *. lia. }
  rewrite Z.div_add by lia. lia.
Qed.

Lemma Item_Parse_advances_25_witness :
  let b := ParseBuffer.mk (sampleBlock InodeItemKey 25 160 []) 101 in
  25 <= Unread b /\ Offset (snd (Item.Parse Item.zero b)) = 126.
Proof.
  intros b.
  assert (25 <= Unread b) as HU by (vm_compute; discriminate).
  split; [exact HU|].
  rewrite (proj1 (Item_Parse_advances_25 Item.zero b HU)). reflexivity.
Defined.

(** ** Clamped lengths *)

(** Names one read of the body after the other, keeping what is known of
    the length of the raw bytes a [Next] returns. *)
Ltac run_reads :=
  unfold bind, ret;
  repeat match goal with
  | |- context [let (_, _) := Next ?n ?b in _] =>
      let H := fresh "Hlen" in
      pose proof (Next_length n b) as H;
      destruct (Next n b) as [? ?]; cbn [fst snd] in H
  | |- context [let (_, _) := ?m ?b in _] => destruct (m b) as [? ?]
  end.

Lemma clamp_le (l cap : Z) :
  0 <= cap -> Z.max 0 (if l >? cap then cap else l) <= cap.
Proof. intros. destruct (l >? cap) eqn:E; lia. Qed.

(** C7.  Whatever the declared name length, the name decoded for an inode
    ref, for a directory item (also used for directory indexes and xattrs)
    and for a root ref (also used for root backrefs) has at most 255
    bytes. *)
Theorem Name_length_le_255 (b : ParseBuffer.t) :
  (forall i, Z.of_nat (length (InodeRefItem.Name
                                 (fst (InodeRefItem.Parse i b)))) <= 255) /\
  (forall i, Z.of_nat (length (DirItem.Name
                                 (fst (DirItem.Parse i b)))) <= 255) /\
  (forall i, Z.of_nat (length (RootRef.Name
                                 (fst (RootRef.Parse i b)))) <= 255).
Proof.
  repeat split; intros i.
  - unfold InodeRefItem.Parse. run_reads.
    cbn [fst InodeRefItem.Name].
    match goal with
    | H : _ = Z.min (Z.max 0 (if ?l >? 255 then _ else _)) _ |- _ =>
        pose proof (clamp_le l 255)
    end. lia.
  - unfold DirItem.Parse. run_reads.
    cbn [fst DirItem.Name].
    match goal with
    | H : _ = Z.min (Z.max 0 (if ?l >? 255 then _ else _)) _ |- _ =>
        pose proof (clamp_le l 255)
    end. lia.
  - unfold RootRef.Parse. run_reads.
    cbn [fst RootRef.Name].
    match goal with
    | H : _ = Z.min (Z.max 0 (if ?l >? 255 then _ else _)) _ |- _ =>
        pose proof (clamp_le l 255)
    end. lia.
Qed.

(** C8.  Whatever the declared data length, the inline data decoded for a
    directory item (the shape of directory items, directory indexes and
    xattrs) has at most [DefaultBlockSize] = 4096 bytes. *)
Theorem DirItem_Data_length_le_block (i : DirItem.t) (b : ParseBuffer.t) :
  Z.of_nat (length (DirItem.Data (fst (DirItem.Parse i b))))
  <= DefaultBlockSize /\ DefaultBlockSize = 4096.
Proof.
  split; [|reflexivity].
  unfold DirItem.Parse. run_reads. cbn [fst DirItem.Data].
  match goal with
  | H : _ = Z.min (Z.max 0 (if ?l >? DefaultBlockSize then _ else _)) _
    |- _ => pose proof (clamp_le l DefaultBlockSize)
  end.
  assert (0 <= DefaultBlockSize) by (vm_compute; discriminate). lia.
Qed.

(** ** Root items *)

Lemma NextTime_fwd (b : ParseBuffer.t) (c : Z) :
  0 <= c ->
  InodeItem.NextTime (seek_fwd b c) = (timeAt b c, seek_fwd b (c + 12)).
Proof.
  intros Hc. unfold InodeItem.NextTime, timeAt. fwd. same_reads.
Qed.

#[export] Hint Rewrite NextTime_fwd using lia : fwd.

Lemma InodeItem_Parse_fwd (i : InodeItem.t) (b : ParseBuffer.t) (c : Z) :
  0 <= c ->
  InodeItem.Parse i (seek_fwd b c) = (inodeAt i b c, seek_fwd b (c + 160)).
Proof.
  intros Hc. unfold InodeItem.Parse, inodeAt. fwd. same_reads.
Qed.

#[export] Hint Rewrite InodeItem_Parse_fwd using lia : fwd.

Lemma RootItem_ParseFixed_fwd (i : RootItem.t) (b : ParseBuffer.t) (c : Z) :
  0 <= c ->
  RootItem.ParseFixed i (seek_fwd b c) =
  (RootItem.mk (inodeAt (RootItem.Inode i) b c)
     (le_combine (peek b (c + 160) 8)) (le_combine (peek b (c + 168) 8))
     (le_combine (peek b (c + 176) 8)) (le_combine (peek b (c + 184) 8))
     (RootItem.BytesUsed i)
     (le_combine (peek b (c + 192) 8)) (le_combine (peek b (c + 200) 8))
     (le_combine (peek b (c + 208) 4))
     (Key.mk (le_combine (peek b (c + 212) 8))
             (le_combine (peek b (c + 220) 1))
             (le_combine (peek b (c + 221) 8)))
     (le_combine (peek b (c + 229) 1)) (le_combine (peek b (c + 230) 1))
     (le_combine (peek b (c + 231) 8))
     (RootItem.UUID i) (RootItem.ParentUUID i) (RootItem.ReceivedUUID i)
     (RootItem.CTransId i) (RootItem.OTransId i) (RootItem.STransId i)
     (RootItem.RTransId i) (RootItem.Reserved i),
   seek_fwd b (c + 239)).
Proof.
  intros Hc. unfold RootItem.ParseFixed. fwd. same_reads.
Qed.

Lemma RootItem_ParseExtension_fwd (i : RootItem.t) (b : ParseBuffer.t)
    (c : Z) :
  0 <= c -> length (RootItem.Reserved i) = 8%nat ->
  RootItem.ParseExtension i (seek_fwd b c) =
  (RootItem.mk (RootItem.Inode i) (RootItem.Generation i)
     (RootItem.RootDirId i) (RootItem.ByteNr i) (RootItem.ByteLimit i)
     (RootItem.BytesUsed i) (RootItem.LastSnapshot i) (RootItem.Flags i)
     (RootItem.Refs i) (RootItem.DropProgress i) (RootItem.DropLevel i)
     (RootItem.Level i) (RootItem.GenerationV2 i)
     (copy (RootItem.UUID i) (peek b c 16))
     (copy (RootItem.ParentUUID i) (peek b (c + 16) 16))
     (copy (RootItem.ReceivedUUID i) (peek b (c + 32) 16))
     (le_combine (peek b (c + 48) 8)) (le_combine (peek b (c + 56) 8))
     (le_combine (peek b (c + 64) 8)) (le_combine (peek b (c + 72) 8))
     (map (fun k => le_combine (peek b (c + 80 + 8 * k) 8))
          [0; 1; 2; 3; 4; 5; 6; 7]),
   seek_fwd b (c + 144)).
Proof.
  intros Hc Hlen. unfold RootItem.ParseExtension.
  destruct (RootItem.Reserved i) as [|r0 [|r1 [|r2 [|r3 [|r4 [|r5 [|r6
    [|r7 [|r8 rest]]]]]]]]]; try discriminate Hlen.
  cbn [forEach map]. unfold uuid.UUIDSize. fwd. same_reads.
Qed.

Lemma RootItem_Parse_fwd (i : RootItem.t) (b : ParseBuffer.t) :
  RootItem.Parse i b =
  let fixed := fst (RootItem.ParseFixed i b) in
  if RootItem.Generation fixed =? RootItem.GenerationV2 fixed
  then RootItem.ParseExtension fixed (seek_fwd b 239)
  else (fixed, seek_fwd b 239).
Proof.
  pose proof (RootItem_ParseFixed_fwd i b 0 ltac:(lia)) as H.
  rewrite seek_fwd_0 in H. cbn [Z.add] in H.
  unfold RootItem.Parse, bind. rewrite H. cbv zeta. cbn [fst].
  destruct (_ =? _); reflexivity.
Qed.

(** The gate of [RootItem.Parse] at the distances the code reads from: the
    word it takes for the second generation is the one at distance 231 of
    the payload start.  When it equals the decoded first generation, the
    three UUIDs, the four transaction ids and the eight reserved words are
    read from distances 239 to 383 and the cursor ends behind them; when
    it differs, all of these keep their zero value and the cursor ends at
    distance 239.  (A cursor never moves past the end of its buffer,
    hence the [min].)  Where these distances lie in a root item as laid
    out on disk is another matter, see the end of the file. *)
Theorem RootItem_Parse_generation_gate (b : ParseBuffer.t) :
  let r := fst (RootItem.Parse RootItem.zero b) in
  let b' := snd (RootItem.Parse RootItem.zero b) in
  RootItem.Generation r = le_combine (peek b 160 8) /\
  RootItem.GenerationV2 r = le_combine (peek b 231 8) /\
  if RootItem.Generation r =? RootItem.GenerationV2 r then
    RootItem.UUID r = copy uuid.zero (peek b 239 16) /\
    RootItem.ParentUUID r = copy uuid.zero (peek b 255 16) /\
    RootItem.ReceivedUUID r = copy uuid.zero (peek b 271 16) /\
    RootItem.CTransId r = le_combine (peek b 287 8) /\
    RootItem.OTransId r = le_combine (peek b 295 8) /\
    RootItem.STransId r = le_combine (peek b 303 8) /\
    RootItem.RTransId r = le_combine (peek b 311 8) /\
    RootItem.Reserved r =
      map (fun k => le_combine (peek b (319 + 8 * k) 8))
          [0; 1; 2; 3; 4; 5; 6; 7] /\
    Offset b' = Offset b + Z.min 383 (Unread b)
  else
    RootItem.UUID r = uuid.zero /\
    RootItem.ParentUUID r = uuid.zero /\
    RootItem.ReceivedUUID r = uuid.zero /\
    RootItem.CTransId r = 0 /\
    RootItem.OTransId r = 0 /\
    RootItem.STransId r = 0 /\
    RootItem.RTransId r = 0 /\
    RootItem.Reserved r = repeat 0 8 /\
    Offset b' = Offset b + Z.min 239 (Unread b).
Proof.
  intros r b'. subst r b'. rewrite RootItem_Parse_fwd.
  pose proof (RootItem_ParseFixed_fwd RootItem.zero b 0 ltac:(lia)) as H.
  rewrite seek_fwd_0 in H. cbn [Z.add] in H. rewrite H. clear H.
  cbv zeta. cbn [fst RootItem.Generation RootItem.GenerationV2].
  destruct (le_combine (peek b 160 8) =? le_combine (peek b 231 8)) eqn:Hgen.
  - rewrite RootItem_ParseExtension_fwd by (reflexivity || lia).
    cbn [fst snd RootItem.Generation RootItem.GenerationV2 RootItem.UUID
         RootItem.ParentUUID RootItem.ReceivedUUID RootItem.CTransId
         RootItem.OTransId RootItem.STransId RootItem.RTransId
         RootItem.Reserved RootItem.zero].
    rewrite Hgen. rewrite Offset_seek_fwd by lia.
    cbn [Z.add Pos.add Pos.succ Pos.add_carry map Z.mul Pos.mul].
    repeat split; reflexivity.
  - cbn [fst snd RootItem.Generation RootItem.GenerationV2 RootItem.UUID
         RootItem.ParentUUID RootItem.ReceivedUUID RootItem.CTransId
         RootItem.OTransId RootItem.STransId RootItem.RTransId
         RootItem.Reserved RootItem.zero].
    rewrite Hgen. rewrite Offset_seek_fwd by lia.
    repeat split; reflexivity.
Qed.

(** [RootItem.Parse] never assigns [BytesUsed]: whatever the payload, the
    field keeps the value the record had, and the 8 bytes behind the byte
    limit go to [LastSnapshot]. *)
Lemma RootItem_Parse_BytesUsed_untouched (i : RootItem.t) (b : ParseBuffer.t) :
  RootItem.BytesUsed (fst (RootItem.Parse i b)) = RootItem.BytesUsed i /\
  RootItem.ByteLimit (fst (RootItem.Parse i b)) = le_combine (peek b 184 8) /\
  RootItem.LastSnapshot (fst (RootItem.Parse i b)) =
    le_combine (peek b 192 8).
Proof.
  rewrite RootItem_Parse_fwd.
  pose proof (RootItem_ParseFixed_fwd i b 0 ltac:(lia)) as H.
  rewrite seek_fwd_0 in H. cbn [Z.add] in H. rewrite H. clear H.
  cbv zeta. cbn [fst RootItem.Generation RootItem.GenerationV2].
  destruct (_ =? _).
  - unfold RootItem.ParseExtension. run_reads.
    cbn [fst RootItem.BytesUsed RootItem.ByteLimit RootItem.LastSnapshot].
    repeat split; reflexivity.
  - cbn [fst RootItem.BytesUsed RootItem.ByteLimit RootItem.LastSnapshot].
    repeat split; reflexivity.
Qed.

(** C4, on a root item laid out as on disk with 4096 bytes used and last
    snapshot 7: the decoded [BytesUsed] is 0; the 8 bytes of the on-disk
    byte usage end up in [LastSnapshot], every later field is read 8 bytes
    early, and the second generation, 5 on disk like the first, is decoded
    as 0, so that the extension block is skipped. *)
Theorem RootItem_Parse_skips_BytesUsed :
  let b := ParseBuffer.mk sampleRootItem 0 in
  let r := fst (RootItem.Parse RootItem.zero b) in
  le_combine (peek b 192 8) = 4096 /\
  RootItem.BytesUsed r = 0 /\
  RootItem.LastSnapshot r = 4096 /\
  RootItem.Flags r = 7 /\
  RootItem.Generation r = 5 /\
  le_combine (peek b 239 8) = 5 /\
  RootItem.GenerationV2 r = 0 /\
  Offset (snd (RootItem.Parse RootItem.zero b)) = 239.
Proof. vm_compute. repeat split; reflexivity. Qed.

(** ** Payloads decoded from an exhausted cursor *)

Lemma Next_exhausted (n : Z) (b : ParseBuffer.t) :
  unread b = [] -> Next n b = ([], b).
Proof.
  intros H. unfold Next. rewrite H, firstn_nil. cbn [length].
  destruct b as [bs o]. cbn [buf offset]. now rewrite Nat.add_0_r.
Qed.

Lemma NextUint_exhausted (w : Z) (b : ParseBuffer.t) :
  unread b = [] -> NextUint w b = (0, b).
Proof. intros H. unfold NextUint. now rewrite Next_exhausted. Qed.

Lemma NextUint8_exhausted (b : ParseBuffer.t) :
  unread b = [] -> NextUint8 b = (0, b).
Proof. apply NextUint_exhausted. Qed.

Lemma NextUint16_exhausted (b : ParseBuffer.t) :
  unread b = [] -> NextUint16 b = (0, b).
Proof. apply NextUint_exhausted. Qed.

Lemma NextUint32_exhausted (b : ParseBuffer.t) :
  unread b = [] -> NextUint32 b = (0, b).
Proof. apply NextUint_exhausted. Qed.

Lemma NextUint64_exhausted (b : ParseBuffer.t) :
  unread b = [] -> NextUint64 b = (0, b).
Proof. apply NextUint_exhausted. Qed.

Create Rewrite HintDb exhausted.
#[export] Hint Rewrite Next_exhausted NextUint8_exhausted
  NextUint16_exhausted NextUint32_exhausted NextUint64_exhausted
  using assumption : exhausted.

Ltac exhausted :=
  unfold bind, ret;
  repeat (progress (autorewrite with exhausted; cbv beta iota zeta));
  reflexivity.

Lemma Key_Parse_exhausted (k : Key.t) (b : ParseBuffer.t) :
  unread b = [] -> Key.Parse k b = (Key.zero, b).
Proof. intros H. unfold Key.Parse. exhausted. Qed.

Lemma NextTime_exhausted (b : ParseBuffer.t) :
  unread b = [] -> InodeItem.NextTime b = (epoch, b).
Proof. intros H. unfold InodeItem.NextTime. exhausted. Qed.

#[export] Hint Rewrite Key_Parse_exhausted NextTime_exhausted
  using assumption : exhausted.

Lemma InodeItem_Parse_exhausted (b : ParseBuffer.t) :
  unread b = [] -> InodeItem.Parse InodeItem.zero b = (inodeAtEnd, b).
Proof. intros H. unfold InodeItem.Parse. exhausted. Qed.

#[export] Hint Rewrite InodeItem_Parse_exhausted using assumption : exhausted.

Ltac root_projections :=
  cbn [RootItem.zero RootItem.Inode RootItem.Generation RootItem.RootDirId
       RootItem.ByteNr RootItem.ByteLimit RootItem.BytesUsed
       RootItem.LastSnapshot RootItem.Flags RootItem.Refs
       RootItem.DropProgress RootItem.DropLevel RootItem.Level
       RootItem.GenerationV2 RootItem.UUID RootItem.ParentUUID
       RootItem.ReceivedUUID RootItem.CTransId RootItem.OTransId
       RootItem.STransId RootItem.RTransId RootItem.Reserved].

Lemma RootItem_Parse_exhausted (b : ParseBuffer.t) :
  unread b = [] -> RootItem.Parse RootItem.zero b = (rootItemAtEnd, b).
Proof.
  intros H. unfold RootItem.Parse, RootItem.ParseFixed. unfold bind at 1.
  root_projections. unfold bind, ret.
  repeat (progress (autorewrite with exhausted; cbv beta iota zeta)).
  root_projections. cbn [Z.eqb].
  unfold RootItem.ParseExtension. root_projections.
  cbn [repeat forEach]. exhausted.
Qed.

Lemma fresh_cases (type : Z) :
  In (Item.fresh type)
     [None;
      Some (InodeItemData InodeItem.zero);
      Some (InodeRefItemData InodeRefItem.zero);
      Some (DirItemData DirItem.zero);
      Some (FileExtentItemData FileExtentItem.zero);
      Some (CSumItemData CSumItem.zero);
      Some (RootItemData RootItem.zero);
      Some (RootRefData RootRef.zero);
      Some (ExtentItemData ExtentItem.zero);
      Some (BlockGroupItemData BlockGroupItem.zero)].
Proof.
  unfold Item.fresh.
  repeat match goal with
  | |- context [if ?c then _ else _] => destruct c
  end; cbn [In]; tauto.
Qed.

Lemma ParseData_exhausted (d : Item.t) (b : ParseBuffer.t) :
  unread b = [] -> Item.Data d = None ->
  Item.ParseData d b =
  (Item.mk (Item.Key d) (Item.Offset d) (Item.Size d)
           (payloadAtEnd (Key.Type_ (Item.Key d))), b).
Proof.
  intros H Hd. unfold Item.ParseData, payloadAtEnd.
  pose proof (fresh_cases (Key.Type_ (Item.Key d))) as Hf.
  cbn [In] in Hf.
  repeat (destruct Hf as [Hf|Hf]); try contradiction; rewrite <- Hf;
    cbn [itemData_Parse].
  - destruct d; cbn in *; subst; reflexivity.
  - unfold bind, ret. rewrite InodeItem_Parse_exhausted by exact H.
    reflexivity.
  - unfold InodeRefItem.Parse. exhausted.
  - unfold DirItem.Parse. cbn [DirItem.Location DirItem.zero]. exhausted.
  - unfold FileExtentItem.Parse. exhausted.
  - unfold CSumItem.Parse. exhausted.
  - unfold bind, ret. rewrite RootItem_Parse_exhausted by exact H.
    reflexivity.
  - unfold RootRef.Parse. exhausted.
  - unfold ExtentItem.Parse. exhausted.
  - unfold BlockGroupItem.Parse. exhausted.
Qed.

(** ** Descriptors and their payloads *)

Lemma forEach_Forall {A : Type} (P Q : A -> Prop) (f : A -> M A) :
  (forall x b, P x -> Q (fst (f x b))) ->
  forall xs b, Forall P xs -> Forall Q (fst (forEach f xs b)).
Proof.
  intros Hf xs. induction xs as [|x rest IH]; intros b HP.
  - constructor.
  - rewrite forEach_cons. inversion HP; subst.
    constructor; [now apply Hf|now apply IH].
Qed.

Lemma peek_length (b : ParseBuffer.t) (c n : Z) :
  0 <= n -> Z.of_nat (length (peek b c n)) <= n.
Proof. intros Hn. unfold peek. rewrite length_firstn. lia. Qed.

Lemma uint32_read_range (b : ParseBuffer.t) (c : Z) :
  0 <= le_combine (peek b c 4) < 2 ^ 32.
Proof.
  pose proof (le_combine_bound (peek b c 4)) as Hb.
  pose proof (peek_length b c 4 ltac:(lia)) as Hl.
  assert (2 ^ (8 * Z.of_nat (length (peek b c 4))) <= 2 ^ 32).
  { apply Z.pow_le_mono_r; lia. }
  lia.
Qed.

(** What the first loop leaves in each item: no payload yet, and a data
    offset that fits 32 bits. *)
Lemma descriptor_shape (l : Leaf.t) (b : ParseBuffer.t) (k : nat)
    (d : Item.t) :
  nth_error (descriptors l b) k = Some d ->
  Item.Data d = None /\ 0 <= Item.Offset d < 2 ^ 32.
Proof.
  intros Hk. apply nth_error_In in Hk. revert d Hk. apply Forall_forall.
  unfold descriptors.
  apply (forEach_Forall (fun x => Item.Data x = None)).
  - intros x b0 Hx.
    pose proof (Item_Parse_fwd x b0 0 ltac:(lia)) as H.
    rewrite seek_fwd_0 in H. rewrite H. cbn [fst Item.Data Item.Offset].
    split; [exact Hx|apply uint32_read_range].
  - apply Forall_forall. intros x Hx. apply repeat_spec in Hx. now subst.
Qed.

Lemma Leaf_Parse_nth (l : Leaf.t) (b : ParseBuffer.t) (k : nat)
    (d : Item.t) :
  Header.NrItems (Leaf.Header l) <> 0 ->
  nth_error (descriptors l b) k = Some d ->
  nth_error (Leaf.Items (fst (Leaf.Parse l b))) k =
  Some (fst (Leaf.resolve (uint32 (Offset b)) d b)).
Proof.
  intros Hn Hk. rewrite Leaf_Parse_Items by exact Hn.
  rewrite nth_error_map, Hk. reflexivity.
Qed.

Lemma unread_SetOffset_past_end (o : Z) (b : ParseBuffer.t) :
  Z.of_nat (length (buf b)) <= o -> unread (SetOffset o b) = [].
Proof.
  intros H. unfold unread, SetOffset. cbn [buf offset].
  apply skipn_all2. lia.
Qed.

Lemma fresh_unknown (type : Z) :
  ~ In type knownTags -> Item.fresh type = None.
Proof.
  intros H. unfold Item.fresh.
  repeat match goal with
  | |- context [?x =? ?y] =>
      destruct (Z.eqb_spec x y) as [->|?];
      [exfalso; apply H; unfold knownTags; cbn [In]; tauto|]
  end.
  reflexivity.
Qed.

Lemma ParseData_unknown (i : Item.t) (b : ParseBuffer.t) :
  ~ In (Key.Type_ (Item.Key i)) knownTags -> Item.ParseData i b = (i, b).
Proof.
  intros H. unfold Item.ParseData. now rewrite (fresh_unknown _ H).
Qed.

Lemma forEach_cons_snd {A : Type} (f : A -> M A) (x : A) rest b :
  snd (forEach f (x :: rest) b) = snd (forEach f rest (snd (f x b))).
Proof.
  cbn [forEach]. unfold bind at 1. destruct (f x b) as [x' b1].
  unfold bind at 1. cbn [fst snd].
  destruct (forEach f rest b1) as [rest' b2]. reflexivity.
Qed.

Lemma forEach_app_fst {A : Type} (f : A -> M A) (xs ys : list A) b :
  fst (forEach f (xs ++ ys) b) =
  fst (forEach f xs b) ++ fst (forEach f ys (snd (forEach f xs b))).
Proof.
  revert b. induction xs as [|x rest IH]; intros b.
  - reflexivity.
  - cbn [app]. rewrite !forEach_cons, IH, forEach_cons_snd. reflexivity.
Qed.

(** C2 (as amended).  An item whose payload seek target lies at or beyond
    the end of the buffer keeps its key, offset and size and gets the
    payload its type tag selects, decoded from an exhausted cursor: every
    field zero or empty (no payload at all only for an unknown tag).
    Every item of the leaf, that one included, is resolved from the
    buffer, [headerEnd] and its own descriptor alone, so the other items
    are decoded as they would be without it. *)
Theorem seek_past_end_zero_payload (l : Leaf.t) (b : ParseBuffer.t)
    (k : nat) (d : Item.t) :
  Header.NrItems (Leaf.Header l) <> 0 ->
  nth_error (descriptors l b) k = Some d ->
  Z.of_nat (length (buf b)) <= Leaf.seekTarget (uint32 (Offset b)) d ->
  nth_error (Leaf.Items (fst (Leaf.Parse l b))) k =
    Some (Item.mk (Item.Key d) (Item.Offset d) (Item.Size d)
                  (payloadAtEnd (Key.Type_ (Item.Key d)))) /\
  Leaf.Items (fst (Leaf.Parse l b)) =
    map (fun e => fst (Leaf.resolve (uint32 (Offset b)) e b))
        (descriptors l b).
Proof.
  intros Hn Hk Hend. split; [|now apply Leaf_Parse_Items].
  rewrite (Leaf_Parse_nth l b k d Hn Hk). f_equal.
  unfold Leaf.resolve.
  rewrite ParseData_exhausted; [reflexivity| |].
  - now apply unread_SetOffset_past_end.
  - exact (proj1 (descriptor_shape l b k d Hk)).
Qed.

Lemma seek_past_end_zero_payload_witness :
  let l := parsedHeader (sampleBlock InodeItemKey 1000 0 []) in
  let b := afterHeader (sampleBlock InodeItemKey 1000 0 []) in
  let d := Item.mk (Key.mk 256 InodeItemKey 0) 1000 0 None in
  Header.NrItems (Leaf.Header l) <> 0 /\
  nth_error (descriptors l b) 0 = Some d /\
  Z.of_nat (length (buf b)) <= Leaf.seekTarget (uint32 (Offset b)) d /\
  nth_error (Leaf.Items (fst (Leaf.Parse l b))) 0 =
    Some (Item.mk (Key.mk 256 InodeItemKey 0) 1000 0
                  (Some (InodeItemData inodeAtEnd))).
Proof.
  intros l b d.
  assert (Header.NrItems (Leaf.Header l) <> 0) as H1
    by (vm_compute; discriminate).
  assert (nth_error (descriptors l b) 0 = Some d) as H2
    by (vm_compute; reflexivity).
  assert (Z.of_nat (length (buf b)) <= Leaf.seekTarget (uint32 (Offset b)) d)
    as H3 by (vm_compute; discriminate).
  split; [exact H1|]. split; [exact H2|]. split; [exact H3|].
  exact (proj1 (seek_past_end_zero_payload l b 0%nat d H1 H2 H3)).
Defined.

(** C2, as stated, fails: in a block of 126 bytes whose only item is an
    inode item with data offset 1000, the seek target is 1101, past the
    end, and the item still gets a payload, an inode item with zero
    fields. *)
Lemma seek_past_end_payload_present :
  let l := parsedHeader (sampleBlock InodeItemKey 1000 0 []) in
  let b := afterHeader (sampleBlock InodeItemKey 1000 0 []) in
  Z.of_nat (length (buf b)) = 126 /\
  map (Leaf.seekTarget (uint32 (Offset b))) (descriptors l b) = [1101] /\
  map Item.Data (Leaf.Items (fst (Leaf.Parse l b))) =
    [Some (InodeItemData inodeAtEnd)] /\
  map Item.Data (Leaf.Items (fst (Leaf.Parse l b))) <> [None].
Proof.
  intros l b. repeat split; try (vm_compute; reflexivity).
  vm_compute. discriminate.
Qed.

(** C6.  An item whose type tag has no case in the switch is left as it
    is by [Item.ParseData], cursor included: no payload, same key, offset
    and size.  In a leaf, such a descriptor is the decoded item, without
    payload; and in the payload loop the items before and after it are
    resolved as if it were not there. *)
Theorem unknown_tag_no_payload (l : Leaf.t) (b : ParseBuffer.t) (k : nat)
    (d : Item.t) :
  ~ In (Key.Type_ (Item.Key d)) knownTags ->
  Item.ParseData d b = (d, b) /\
  (Header.NrItems (Leaf.Header l) <> 0 ->
   nth_error (descriptors l b) k = Some d ->
   nth_error (Leaf.Items (fst (Leaf.Parse l b))) k = Some d /\
   Item.Data d = None) /\
  (forall headerEnd pre rest,
     fst (forEach (Leaf.resolve headerEnd) (pre ++ d :: rest) b) =
     fst (forEach (Leaf.resolve headerEnd) pre b) ++
     d :: fst (forEach (Leaf.resolve headerEnd) rest b)).
Proof.
  intros Hd. split; [now apply ParseData_unknown|]. split.
  - intros Hn Hk. split.
    + rewrite (Leaf_Parse_nth l b k d Hn Hk). unfold Leaf.resolve.
      now rewrite ParseData_unknown.
    + exact (proj1 (descriptor_shape l b k d Hk)).
  - intros headerEnd pre rest.
    rewrite forEach_app_fst, forEach_cons. f_equal.
    assert (forall c, Leaf.resolve headerEnd d c =
                      (d, SetOffset (Leaf.seekTarget headerEnd d) c)) as Hr.
    { intros c. unfold Leaf.resolve. now apply ParseData_unknown. }
    rewrite !Hr. cbn [fst snd]. f_equal.
    rewrite (forEach_resolve headerEnd rest _ b).
    + now rewrite (forEach_resolve headerEnd rest b b).
    + cbn [SetOffset buf].
      now rewrite (keeps_buf_forEach _ pre (keeps_buf_resolve headerEnd)).
Qed.

Lemma unknown_tag_no_payload_witness :
  let l := parsedHeader (sampleBlock InodeExtrefKey 0 0 []) in
  let b := afterHeader (sampleBlock InodeExtrefKey 0 0 []) in
  let d := Item.mk (Key.mk 256 InodeExtrefKey 0) 0 0 None in
  ~ In (Key.Type_ (Item.Key d)) knownTags /\
  Header.NrItems (Leaf.Header l) <> 0 /\
  nth_error (descriptors l b) 0 = Some d /\
  Leaf.Items (fst (Leaf.Parse l b)) = [d] /\
  nth_error (Leaf.Items (fst (Leaf.Parse l b))) 0 = Some d.
Proof.
  intros l b d.
  assert (~ In (Key.Type_ (Item.Key d)) knownTags) as H0.
  { unfold knownTags. cbn [In Item.Key Key.Type_ d]. intros H.
    repeat (destruct H as [H|H]; [discriminate H|]). exact H. }
  assert (Header.NrItems (Leaf.Header l) <> 0) as H1
    by (vm_compute; discriminate).
  assert (nth_error (descriptors l b) 0 = Some d) as H2
    by (vm_compute; reflexivity).
  split; [exact H0|]. split; [exact H1|]. split; [exact H2|].
  split; [vm_compute; reflexivity|].
  destruct (unknown_tag_no_payload l b 0%nat d H0) as [_ [H _]].
  exact (proj1 (H H1 H2)).
Defined.

(** C10.  The payload seek target is [(headerEnd + dataOffset) mod 2^32]:
    item [k] of the leaf is its descriptor resolved at that offset, which
    is the exact sum less [2^32], below [headerEnd], as soon as the sum
    reaches [2^32].  And there is a block where this happens: with
    [headerEnd] 101 and data offset [0xFFFFFFFB] the cursor is sent to
    offset 96, inside the 126-byte block, and the checksum item is decoded
    from the byte found there. *)
Theorem seek_target_wraps :
  (forall (l : Leaf.t) (b : ParseBuffer.t) (k : nat) (d : Item.t),
     Header.NrItems (Leaf.Header l) <> 0 ->
     nth_error (descriptors l b) k = Some d ->
     let target := (uint32 (Offset b) + Item.Offset d) mod 2 ^ 32 in
     Leaf.seekTarget (uint32 (Offset b)) d = target /\
     nth_error (Leaf.Items (fst (Leaf.Parse l b))) k =
       Some (fst (Item.ParseData d (SetOffset target b))) /\
     (2 ^ 32 <= uint32 (Offset b) + Item.Offset d ->
      target = uint32 (Offset b) + Item.Offset d - 2 ^ 32 /\
      target < uint32 (Offset b))) /\
  (exists (l : Leaf.t) (b : ParseBuffer.t) (d it : Item.t),
     Header.NrItems (Leaf.Header l) <> 0 /\
     descriptors l b = [d] /\
     Leaf.Items (fst (Leaf.Parse l b)) = [it] /\
     uint32 (Offset b) = 101 /\
     Item.Offset d = 0xFFFFFFFB /\
     2 ^ 32 <= uint32 (Offset b) + Item.Offset d /\
     Leaf.seekTarget (uint32 (Offset b)) d = 96 /\
     96 < Z.of_nat (length (buf b)) /\
     nth_error (buf b) 96 = Some Byte.x01 /\
     Item.Data it = Some (CSumItemData (CSumItem.mk 1))).
Proof.
  split.
  - intros l b k d Hn Hk target.
    pose proof (proj2 (descriptor_shape l b k d Hk)) as Hoff.
    assert (0 <= uint32 (Offset b) < 2 ^ 32) as Hend.
    { unfold uint32. apply Z.mod_pos_bound. lia. }
    split; [reflexivity|]. split.
    + now rewrite (Leaf_Parse_nth l b k d Hn Hk).
    + intros Hsum. subst target.
      assert ((uint32 (Offset b) + Item.Offset d) mod 2 ^ 32 =
              uint32 (Offset b) + Item.Offset d - 2 ^ 32) as ->.
      { symmetry. apply Z.mod_unique with (q := 1); lia. }
      lia.
  - exists (parsedHeader (sampleBlock ExtentCSumKey 0xFFFFFFFB 0 [])),
      (afterHeader (sampleBlock ExtentCSumKey 0xFFFFFFFB 0 [])),
      (Item.mk (Key.mk 256 ExtentCSumKey 0) 0xFFFFFFFB 0 None),
      (Item.mk (Key.mk 256 ExtentCSumKey 0) 0xFFFFFFFB 0
               (Some (CSumItemData (CSumItem.mk 1)))).
    repeat split; try (vm_compute; reflexivity); vm_compute; discriminate.
Qed.

Lemma seek_target_wraps_witness :
  let l := parsedHeader (sampleBlock ExtentCSumKey 0xFFFFFFFB 0 []) in
  let b := afterHeader (sampleBlock ExtentCSumKey 0xFFFFFFFB 0 []) in
  let d := Item.mk (Key.mk 256 ExtentCSumKey 0) 0xFFFFFFFB 0 None in
  Header.NrItems (Leaf.Header l) <> 0 /\
  nth_error (descriptors l b) 0 = Some d /\
  2 ^ 32 <= uint32 (Offset b) + Item.Offset d /\
  Leaf.seekTarget (uint32 (Offset b)) d = 101 + 0xFFFFFFFB - 2 ^ 32.
Proof.
  intros l b d.
  assert (Header.NrItems (Leaf.Header l) <> 0) as H1
    by (vm_compute; discriminate).
  assert (nth_error (descriptors l b) 0 = Some d) as H2
    by (vm_compute; reflexivity).
  assert (2 ^ 32 <= uint32 (Offset b) + Item.Offset d) as H3
    by (vm_compute; discriminate).
  split; [exact H1|]. split; [exact H2|]. split; [exact H3|].
  destruct (proj1 seek_target_wraps l b 0%nat d H1 H2) as [Ht [_ Hw]].
  rewrite Ht. exact (proj1 (Hw H3)).
Defined.

(** ** The decoder at work on the sample blocks *)

Example Header_Parse_sample :
  let hb := Header.Parse Header.zero
              (ParseBuffer.mk (sampleBlock InodeItemKey 25 160 []) 0) in
  Header.NrItems (fst hb) = 1 /\ Header.IsLeaf (fst hb) = true /\
  Offset (snd hb) = 101.
Proof. vm_compute. repeat split; reflexivity. Qed.

Example DirItem_Parse_clamps :
  let i := fst (DirItem.Parse DirItem.zero (ParseBuffer.mk sampleDirItem 0)) in
  DirItem.NameLen i = 0xFFFF /\ DirItem.DataLen i = 0xFFFF /\
  length (DirItem.Name i) = 255%nat /\ length (DirItem.Data i) = 4096%nat.
Proof. vm_compute. repeat split; reflexivity. Qed.

Example RootItem_Parse_extended :
  let rb := RootItem.Parse RootItem.zero
              (ParseBuffer.mk sampleExtendedRootItem 0) in
  RootItem.Generation (fst rb) = 5 /\ RootItem.GenerationV2 (fst rb) = 5 /\
  RootItem.UUID (fst rb) = repeat Byte.x11 16 /\
  RootItem.ParentUUID (fst rb) = repeat Byte.x22 16 /\
  RootItem.ReceivedUUID (fst rb) = repeat Byte.x33 16 /\
  RootItem.CTransId (fst rb) = 1 /\ RootItem.RTransId (fst rb) = 4 /\
  Offset (snd rb) = 383.
Proof. vm_compute. repeat split; reflexivity. Qed.

Example Leaf_Parse_inode_item :
  let bytes := sampleBlock InodeItemKey 25 160
                 (le_split 8 7 ++ repeat Byte.x00 152) in
  map Item.Data (Leaf.Items (fst (Leaf.Parse (parsedHeader bytes)
                                             (afterHeader bytes)))) =
  [Some (InodeItemData
           (InodeItem.mk 7 0 0 0 0 0 0 0 0 0 0 0 (repeat 0 4)
                         epoch epoch epoch epoch))].
Proof. vm_compute. reflexivity. Qed.

(** * Further properties of the decoder *)

(** ** Reads, arrays and ranges *)

Lemma copy_length {A : Type} (dst src : list A) :
  length (copy dst src) = length dst.
Proof.
  unfold copy. rewrite length_app, length_skipn, length_firstn. lia.
Qed.

Lemma copy_full {A : Type} (dst src : list A) :
  length src = length dst -> copy dst src = src.
Proof.
  intros H. unfold copy. rewrite <- H, firstn_all, skipn_all2 by lia.
  apply app_nil_r.
Qed.

Lemma peek_full (b : ParseBuffer.t) (c n : Z) :
  0 <= c -> 0 <= n -> c + n <= Unread b ->
  length (peek b c n) = Z.to_nat n.
Proof.
  intros Hc Hn H. unfold peek, Unread in *.
  rewrite length_firstn, length_skipn. lia.
Qed.

Lemma peek_past_end (b : ParseBuffer.t) (c n : Z) :
  Unread b <= c -> peek b c n = [].
Proof.
  intros H. unfold peek, Unread in *.
  rewrite skipn_all2 by lia. apply firstn_nil.
Qed.

Lemma read_range (b : ParseBuffer.t) (c n : Z) :
  0 <= n -> 0 <= le_combine (peek b c n) < 2 ^ (8 * n).
Proof.
  intros Hn.
  pose proof (le_combine_bound (peek b c n)) as Hb.
  pose proof (peek_length b c n Hn) as Hl.
  assert (2 ^ (8 * Z.of_nat (length (peek b c n))) <= 2 ^ (8 * n)).
  { apply Z.pow_le_mono_r; lia. }
  lia.
Qed.

(** Brings a closed form stated at distance [c] to the cursor itself. *)
Ltac at_cursor H :=
  rewrite seek_fwd_0 in H; cbn [Z.add] in H.

(** ** Header *)

Lemma Header_Parse_fwd (h : Header.t) (b : ParseBuffer.t) (c : Z) :
  0 <= c ->
  Header.Parse h (seek_fwd b c) =
  (Header.mk (copy (Header.CSum h) (peek b c 32))
             (copy (Header.FSID h) (peek b (c + 32) 16))
             (le_combine (peek b (c + 48) 8))
             (le_combine (peek b (c + 56) 8))
             (copy (Header.ChunkTreeUUID h) (peek b (c + 64) 16))
             (le_combine (peek b (c + 80) 8))
             (le_combine (peek b (c + 88) 8))
             (le_combine (peek b (c + 96) 4))
             (le_combine (peek b (c + 100) 1)),
   seek_fwd b (c + 101)).
Proof.
  intros Hc. unfold Header.Parse, CSumSize, uuid.UUIDSize. fwd. same_reads.
Qed.

(** X1.  [Header.Parse], on any buffer and any receiver: the integer
    fields are the little-endian values at distances 48, 56, 80, 88, 96
    and 100 of the cursor, the three arrays are overwritten from distances
    0, 32 and 64 by as many bytes as the buffer still has and keep their
    length, and the cursor moves by 101 bytes or to the end of the buffer,
    whichever comes first. *)
Theorem Header_Parse_layout (h : Header.t) (b : ParseBuffer.t) :
  let h' := fst (Header.Parse h b) in
  Header.CSum h' = copy (Header.CSum h) (peek b 0 32) /\
  Header.FSID h' = copy (Header.FSID h) (peek b 32 16) /\
  Header.ByteNr h' = le_combine (peek b 48 8) /\
  Header.Flags h' = le_combine (peek b 56 8) /\
  Header.ChunkTreeUUID h' = copy (Header.ChunkTreeUUID h) (peek b 64 16) /\
  Header.Generation h' = le_combine (peek b 80 8) /\
  Header.Owner h' = le_combine (peek b 88 8) /\
  Header.NrItems h' = le_combine (peek b 96 4) /\
  Header.Level h' = le_combine (peek b 100 1) /\
  length (Header.CSum h') = length (Header.CSum h) /\
  length (Header.FSID h') = length (Header.FSID h) /\
  length (Header.ChunkTreeUUID h') = length (Header.ChunkTreeUUID h) /\
  0 <= Header.NrItems h' < 2 ^ 32 /\
  0 <= Header.Level h' < 2 ^ 8 /\
  Offset (snd (Header.Parse h b)) = Offset b + Z.min 101 (Unread b).
Proof.
  intros h'. subst h'.
  pose proof (Header_Parse_fwd h b 0 ltac:(lia)) as H. at_cursor H.
  rewrite H. cbn [fst snd Header.CSum Header.FSID Header.ByteNr Header.Flags
    Header.ChunkTreeUUID Header.Generation Header.Owner Header.NrItems
    Header.Level].
  rewrite !copy_length, Offset_seek_fwd by lia.
  pose proof (read_range b 96 4 ltac:(lia)).
  pose proof (read_range b 100 1 ltac:(lia)).
  repeat split; try reflexivity; lia.
Qed.

(** X2.  On a buffer with a whole header, 101 unread bytes or more, a
    fresh header gets exactly the 32 checksum bytes, the two 16-byte
    identifiers, and the cursor ends 101 bytes further; the block is a
    leaf exactly when the byte at distance 100 is zero. *)
Theorem Header_Parse_whole (b : ParseBuffer.t) :
  101 <= Unread b ->
  let h' := fst (Header.Parse Header.zero b) in
  Header.CSum h' = peek b 0 32 /\ length (Header.CSum h') = 32%nat /\
  Header.FSID h' = peek b 32 16 /\ length (Header.FSID h') = 16%nat /\
  Header.ChunkTreeUUID h' = peek b 64 16 /\
  length (Header.ChunkTreeUUID h') = 16%nat /\
  Header.IsLeaf h' = (le_combine (peek b 100 1) =? 0) /\
  Offset (snd (Header.Parse Header.zero b)) = Offset b + 101 /\
  Unread (snd (Header.Parse Header.zero b)) = Unread b - 101.
Proof.
  intros HU h'. subst h'.
  pose proof (Header_Parse_fwd Header.zero b 0 ltac:(lia)) as H. at_cursor H.
  rewrite H. unfold Header.IsLeaf.
  cbn [fst snd Header.CSum Header.FSID Header.ChunkTreeUUID Header.Level
       Header.zero].
  pose proof (peek_full b 0 32 ltac:(lia) ltac:(lia) ltac:(lia)) as L1.
  pose proof (peek_full b 32 16 ltac:(lia) ltac:(lia) ltac:(lia)) as L2.
  pose proof (peek_full b 64 16 ltac:(lia) ltac:(lia) ltac:(lia)) as L3.
  rewrite !copy_full by (rewrite ?L1, ?L2, ?L3; reflexivity).
  rewrite Unread_eq, Offset_seek_fwd by lia. cbn [buf seek_fwd].
  rewrite (Unread_eq b) in *.
  repeat split; try assumption; try reflexivity; lia.
Qed.

Lemma Header_Parse_whole_witness :
  let b := ParseBuffer.mk (sampleBlock InodeItemKey 25 160 []) 0 in
  101 <= Unread b /\ Offset (snd (Header.Parse Header.zero b)) = 101 /\
  Header.IsLeaf (fst (Header.Parse Header.zero b)) = true.
Proof.
  intros b.
  assert (101 <= Unread b) as HU by (vm_compute; discriminate).
  split; [exact HU|].
  destruct (Header_Parse_whole b HU) as (_ & _ & _ & _ & _ & _ & Hl & Ho & _).
  split; [rewrite Ho; reflexivity|rewrite Hl; reflexivity].
Defined.

(** ** Key and the payloads of fixed width *)

(** X3.  [Key.Parse], on any buffer: object id, type and offset are the
    little-endian values at distances 0, 8 and 9, each within its Go type,
    whatever the receiver held; the cursor moves by 17 bytes or to the end
    of the buffer. *)
Theorem Key_Parse_layout (k : Key.t) (b : ParseBuffer.t) :
  let k' := fst (Key.Parse k b) in
  Key.ObjectId k' = le_combine (peek b 0 8) /\
  Key.Type_ k' = le_combine (peek b 8 1) /\
  Key.Offset k' = le_combine (peek b 9 8) /\
  0 <= Key.ObjectId k' < 2 ^ 64 /\
  0 <= Key.Type_ k' < 2 ^ 8 /\
  0 <= Key.Offset k' < 2 ^ 64 /\
  Offset (snd (Key.Parse k b)) = Offset b + Z.min 17 (Unread b).
Proof.
  intros k'. subst k'.
  pose proof (Key_Parse_fwd k b 0 ltac:(lia)) as H. at_cursor H.
  rewrite H. cbn [fst snd Key.ObjectId Key.Type_ Key.Offset].
  rewrite Offset_seek_fwd by lia.
  pose proof (read_range b 0 8 ltac:(lia)).
  pose proof (read_range b 8 1 ltac:(lia)).
  pose proof (read_range b 9 8 ltac:(lia)).
  repeat split; try reflexivity; lia.
Qed.

(** X4.  [InodeItem.Parse], on any buffer: the twelve integer fields are
    read at distances 0 to 72, the 32 bytes at distances 80 to 111 are
    skipped and the [reserved] words of the receiver are kept, the four
    timestamps are read at distances 112, 124, 136 and 148, and the cursor
    moves by 160 bytes or to the end of the buffer. *)
Theorem InodeItem_Parse_layout (i : InodeItem.t) (b : ParseBuffer.t) :
  fst (InodeItem.Parse i b) = inodeAt i b 0 /\
  InodeItem.reserved (fst (InodeItem.Parse i b)) = InodeItem.reserved i /\
  InodeItem.Sequence (fst (InodeItem.Parse i b)) = le_combine (peek b 72 8) /\
  InodeItem.Atime (fst (InodeItem.Parse i b)) = timeAt b 112 /\
  InodeItem.Otime (fst (InodeItem.Parse i b)) = timeAt b 148 /\
  Offset (snd (InodeItem.Parse i b)) = Offset b + Z.min 160 (Unread b).
Proof.
  pose proof (InodeItem_Parse_fwd i b 0 ltac:(lia)) as H. at_cursor H.
  rewrite H. cbn [fst snd]. rewrite Offset_seek_fwd by lia.
  unfold inodeAt. cbn [InodeItem.reserved InodeItem.Sequence InodeItem.Atime
    InodeItem.Otime Z.add]. repeat split; reflexivity.
Qed.

Lemma int64_small (z : Z) : 0 <= z < 2 ^ 63 -> int64 z = z.
Proof.
  intros H. unfold int64. rewrite Z.mod_small by lia.
  destruct (Z.ltb_spec z (2 ^ 63)); lia.
Qed.

Lemma int64_large (z : Z) : 2 ^ 63 <= z < 2 ^ 64 -> int64 z = z - 2 ^ 64.
Proof.
  intros H. unfold int64. rewrite Z.mod_small by lia.
  destruct (Z.ltb_spec z (2 ^ 63)); lia.
Qed.

Lemma timeAt_plain (b : ParseBuffer.t) (c : Z) :
  le_combine (peek b (c + 8) 4) < 1000000000 ->
  timeAt b c =
    plainTime (le_combine (peek b c 8)) (le_combine (peek b (c + 8) 4)) /\
  - 2 ^ 63 <= time.sec (timeAt b c) < 2 ^ 63.
Proof.
  intros Hns.
  pose proof (read_range b (c + 8) 4 ltac:(lia)) as Hn.
  pose proof (read_range b c 8 ltac:(lia)) as Hs.
  unfold timeAt, time.Unix, plainTime.
  destruct (Z.ltb_spec (le_combine (peek b (c + 8) 4)) 0); [lia|].
  destruct (Z.geb_spec (le_combine (peek b (c + 8) 4)) 1000000000); [lia|].
  cbn [orb time.sec time.nsec].
  destruct (Z.ltb_spec (le_combine (peek b c 8)) (2 ^ 63)).
  - rewrite int64_small by lia. split; [reflexivity|lia].
  - rewrite int64_large by lia. split; [reflexivity|lia].
Qed.

(** X5.  The timestamps of [InodeItem.Parse]: each of the four is decoded
    from a 64-bit seconds word followed by a 32-bit nanoseconds word, at
    distances 112, 124, 136 and 148; when the nanoseconds word is below
    [10^9] the decoded time has exactly those nanoseconds and the seconds
    word read as a signed 64-bit number, so that seconds words from
    [2^63] on come out negative.  The same holds of one call of
    [InodeItem.NextTime] at the cursor. *)
Theorem InodeItem_Parse_timestamps (i : InodeItem.t) (b : ParseBuffer.t) :
  let r := fst (InodeItem.Parse i b) in
  let word c n := le_combine (peek b c n) in
  (word 120 4 < 1000000000 ->
   InodeItem.Atime r = plainTime (word 112 8) (word 120 4)) /\
  (word 132 4 < 1000000000 ->
   InodeItem.Ctime r = plainTime (word 124 8) (word 132 4)) /\
  (word 144 4 < 1000000000 ->
   InodeItem.Mtime r = plainTime (word 136 8) (word 144 4)) /\
  (word 156 4 < 1000000000 ->
   InodeItem.Otime r = plainTime (word 148 8) (word 156 4)) /\
  (word 8 4 < 1000000000 ->
   fst (InodeItem.NextTime b) = plainTime (word 0 8) (word 8 4) /\
   - 2 ^ 63 <= time.sec (fst (InodeItem.NextTime b)) < 2 ^ 63 /\
   Offset (snd (InodeItem.NextTime b)) = Offset b + Z.min 12 (Unread b)).
Proof.
  intros r word. subst r word.
  pose proof (InodeItem_Parse_fwd i b 0 ltac:(lia)) as H. at_cursor H.
  rewrite H. cbn [fst]. unfold inodeAt.
  cbn [InodeItem.Atime InodeItem.Ctime InodeItem.Mtime InodeItem.Otime Z.add].
  pose proof (NextTime_fwd b 0 ltac:(lia)) as Ht. at_cursor Ht. rewrite Ht.
  cbn [fst snd]. rewrite Offset_seek_fwd by lia.
  split; [intros Hns; exact (proj1 (timeAt_plain b 112 Hns))|].
  split; [intros Hns; exact (proj1 (timeAt_plain b 124 Hns))|].
  split; [intros Hns; exact (proj1 (timeAt_plain b 136 Hns))|].
  split; [intros Hns; exact (proj1 (timeAt_plain b 148 Hns))|].
  intros Hns. destruct (timeAt_plain b 0 Hns) as [Heq Hrange].
  split; [exact Heq|]. split; [exact Hrange|reflexivity].
Qed.

Lemma InodeItem_Parse_timestamps_witness :
  let b := ParseBuffer.mk (repeat Byte.x00 112
                           ++ le_split 8 (2 ^ 64 - 1) ++ le_split 4 5) 0 in
  le_combine (peek b 120 4) < 1000000000 /\
  InodeItem.Atime (fst (InodeItem.Parse InodeItem.zero b)) = time.mkTime (-1) 5.
Proof.
  intros b.
  assert (le_combine (peek b 120 4) < 1000000000) as H
    by (vm_compute; reflexivity).
  split; [exact H|].
  destruct (InodeItem_Parse_timestamps InodeItem.zero b) as (Ha & _).
  rewrite (Ha H). reflexivity.
Defined.

Lemma FileExtentItem_Parse_fwd (i : FileExtentItem.t) (b : ParseBuffer.t)
    (c : Z) :
  0 <= c ->
  FileExtentItem.Parse i (seek_fwd b c) =
  (FileExtentItem.mk
     (le_combine (peek b c 8)) (le_combine (peek b (c + 8) 8))
     (le_combine (peek b (c + 16) 1)) (le_combine (peek b (c + 17) 1))
     (le_combine (peek b (c + 18) 2)) (le_combine (peek b (c + 20) 1))
     (le_combine (peek b (c + 21) 8)) (le_combine (peek b (c + 29) 8))
     (le_combine (peek b (c + 37) 8)) (le_combine (peek b (c + 45) 8)),
   seek_fwd b (c + 53)).
Proof. intros Hc. unfold FileExtentItem.Parse. fwd. same_reads. Qed.

(** X6.  [FileExtentItem.Parse], on any buffer: generation and ram bytes
    at distances 0 and 8, compression, encryption, other encoding and type
    at 16, 17, 18 and 20, then disk address, disk length, offset and
    length at 21, 29, 37 and 45, read as for a regular extent whatever the
    type byte says; the cursor moves by 53 bytes or to the end of the
    buffer. *)
Theorem FileExtentItem_Parse_layout (i : FileExtentItem.t)
    (b : ParseBuffer.t) :
  let r := fst (FileExtentItem.Parse i b) in
  FileExtentItem.Generation r = le_combine (peek b 0 8) /\
  FileExtentItem.RamBytes r = le_combine (peek b 8 8) /\
  FileExtentItem.Compression r = le_combine (peek b 16 1) /\
  FileExtentItem.Encryption r = le_combine (peek b 17 1) /\
  FileExtentItem.OtherEncoding r = le_combine (peek b 18 2) /\
  FileExtentItem.Type_ r = le_combine (peek b 20 1) /\
  FileExtentItem.DiskByteNr r = le_combine (peek b 21 8) /\
  FileExtentItem.DiskNumBytes r = le_combine (peek b 29 8) /\
  FileExtentItem.Offset r = le_combine (peek b 37 8) /\
  FileExtentItem.NumBytes r = le_combine (peek b 45 8) /\
  Offset (snd (FileExtentItem.Parse i b)) = Offset b + Z.min 53 (Unread b).
Proof.
  intros r. subst r.
  pose proof (FileExtentItem_Parse_fwd i b 0 ltac:(lia)) as H. at_cursor H.
  rewrite H. cbn [fst snd FileExtentItem.Generation FileExtentItem.RamBytes
    FileExtentItem.Compression FileExtentItem.Encryption
    FileExtentItem.OtherEncoding FileExtentItem.Type_
    FileExtentItem.DiskByteNr FileExtentItem.DiskNumBytes
    FileExtentItem.Offset FileExtentItem.NumBytes].
  rewrite Offset_seek_fwd by lia. repeat split; reflexivity.
Qed.

Lemma three_words_fwd (g0 : BlockGroupItem.t) (e0 : ExtentItem.t)
    (s0 : CSumItem.t) (b : ParseBuffer.t) (c : Z) :
  0 <= c ->
  BlockGroupItem.Parse g0 (seek_fwd b c) =
    (BlockGroupItem.mk (le_combine (peek b c 8))
       (le_combine (peek b (c + 8) 8)) (le_combine (peek b (c + 16) 8)),
     seek_fwd b (c + 24)) /\
  ExtentItem.Parse e0 (seek_fwd b c) =
    (ExtentItem.mk (le_combine (peek b c 8))
       (le_combine (peek b (c + 8) 8)) (le_combine (peek b (c + 16) 8)),
     seek_fwd b (c + 24)) /\
  CSumItem.Parse s0 (seek_fwd b c) =
    (CSumItem.mk (le_combine (peek b c 1)), seek_fwd b (c + 1)).
Proof.
  intros Hc. repeat split.
  - unfold BlockGroupItem.Parse. fwd. same_reads.
  - unfold ExtentItem.Parse. fwd. same_reads.
  - unfold CSumItem.Parse. fwd. same_reads.
Qed.

(** X7.  The three smallest payloads, on any buffer.  A block group item
    is the three 64-bit words at distances 0, 8 and 16 (used, chunk object
    id, flags), an extent item likewise (refs, generation, flags), each
    moving the cursor by 24 bytes or to the end of the buffer; a checksum
    item is one byte, and its decoder moves the cursor by that one byte
    only, however long the checksums are. *)
Theorem small_payloads_layout (g0 : BlockGroupItem.t) (e0 : ExtentItem.t)
    (s0 : CSumItem.t) (b : ParseBuffer.t) :
  let g := BlockGroupItem.Parse g0 b in
  let e := ExtentItem.Parse e0 b in
  let s := CSumItem.Parse s0 b in
  BlockGroupItem.Used (fst g) = le_combine (peek b 0 8) /\
  BlockGroupItem.ChunkObjectId (fst g) = le_combine (peek b 8 8) /\
  BlockGroupItem.Flags (fst g) = le_combine (peek b 16 8) /\
  Offset (snd g) = Offset b + Z.min 24 (Unread b) /\
  ExtentItem.Refs (fst e) = le_combine (peek b 0 8) /\
  ExtentItem.Generation (fst e) = le_combine (peek b 8 8) /\
  ExtentItem.Flags (fst e) = le_combine (peek b 16 8) /\
  Offset (snd e) = Offset b + Z.min 24 (Unread b) /\
  CSumItem.CSum (fst s) = le_combine (peek b 0 1) /\
  0 <= CSumItem.CSum (fst s) < 2 ^ 8 /\
  Offset (snd s) = Offset b + Z.min 1 (Unread b).
Proof.
  intros g e s. subst g e s.
  destruct (three_words_fwd g0 e0 s0 b 0 ltac:(lia)) as (Hg & He & Hs).
  at_cursor Hg. at_cursor He. at_cursor Hs. rewrite Hg, He, Hs.
  cbn [fst snd BlockGroupItem.Used BlockGroupItem.ChunkObjectId
       BlockGroupItem.Flags ExtentItem.Refs ExtentItem.Generation
       ExtentItem.Flags CSumItem.CSum].
  rewrite !Offset_seek_fwd by lia.
  pose proof (read_range b 0 1 ltac:(lia)).
  repeat split; try reflexivity; lia.
Qed.

(** ** Names and inline data *)

(** As [at_cursor], leaving sums with a symbolic part alone. *)
Ltac at_cursor0 H :=
  rewrite seek_fwd_0 in H; rewrite ?Z.add_0_l in H.

Lemma clamp_range (declared cap : Z) :
  0 <= declared -> 0 <= cap ->
  0 <= clamp declared cap <= cap /\ clamp declared cap = Z.min declared cap.
Proof. intros. unfold clamp. destruct (Z.gtb_spec declared cap); lia. Qed.

Lemma InodeRefItem_Parse_fwd (i : InodeRefItem.t) (b : ParseBuffer.t)
    (c : Z) :
  0 <= c ->
  InodeRefItem.Parse i (seek_fwd b c) =
  (InodeRefItem.mk (le_combine (peek b c 8)) (le_combine (peek b (c + 8) 2))
     (peek b (c + 10) (clamp (le_combine (peek b (c + 8) 2)) 255)),
   seek_fwd b (c + 10 + clamp (le_combine (peek b (c + 8) 2)) 255)).
Proof.
  intros Hc. unfold InodeRefItem.Parse. fwd. cbv zeta.
  fold (clamp (le_combine (peek b (c + 8) 2)) 255).
  pose proof (read_range b (c + 8) 2 ltac:(lia)) as Hr.
  pose proof (clamp_range (le_combine (peek b (c + 8) 2)) 255
                ltac:(lia) ltac:(lia)) as [Hcl _].
  rewrite Next_fwd by lia. cbv beta iota.
  rewrite <- (Z.add_assoc c 8 2). reflexivity.
Qed.

Lemma peek_length_eq (b : ParseBuffer.t) (c n : Z) :
  0 <= c -> 0 <= n ->
  Z.of_nat (length (peek b c n)) = Z.min n (Z.max 0 (Unread b - c)).
Proof.
  intros Hc Hn. unfold peek, Unread.
  rewrite length_firstn, length_skipn. lia.
Qed.

(** X8.  [InodeRefItem.Parse], on any buffer: the index is read at
    distance 0 and the declared name length at distance 8; [NameLen] keeps
    the declared value, while the name is the bytes from distance 10 on,
    [min NameLen 255] of them or as many as the buffer still has; the
    cursor ends behind the name. *)
Theorem InodeRefItem_Parse_layout (i : InodeRefItem.t) (b : ParseBuffer.t) :
  let r := fst (InodeRefItem.Parse i b) in
  let n := Z.min (InodeRefItem.NameLen r) 255 in
  InodeRefItem.Index r = le_combine (peek b 0 8) /\
  InodeRefItem.NameLen r = le_combine (peek b 8 2) /\
  InodeRefItem.Name r = peek b 10 n /\
  Z.of_nat (length (InodeRefItem.Name r)) = Z.min n (Z.max 0 (Unread b - 10)) /\
  Offset (snd (InodeRefItem.Parse i b)) = Offset b + Z.min (10 + n) (Unread b).
Proof.
  intros r n. subst r n.
  pose proof (InodeRefItem_Parse_fwd i b 0 ltac:(lia)) as H. at_cursor0 H.
  rewrite H. cbn [fst snd InodeRefItem.Index InodeRefItem.NameLen
                  InodeRefItem.Name].
  pose proof (read_range b 8 2 ltac:(lia)) as Hr.
  destruct (clamp_range (le_combine (peek b 8 2)) 255 ltac:(lia) ltac:(lia))
    as [Hcl ->].
  rewrite Offset_seek_fwd, peek_length_eq by lia.
  repeat split; reflexivity.
Qed.

Lemma DirItem_Parse_fwd (i : DirItem.t) (b : ParseBuffer.t) (c : Z) :
  0 <= c ->
  let nameLen := clamp (le_combine (peek b (c + 27) 2)) 255 in
  let dataLen := clamp (le_combine (peek b (c + 25) 2)) DefaultBlockSize in
  DirItem.Parse i (seek_fwd b c) =
  (DirItem.mk (keyAt b c) (le_combine (peek b (c + 17) 8))
     (le_combine (peek b (c + 25) 2)) (le_combine (peek b (c + 27) 2))
     (le_combine (peek b (c + 29) 1))
     (peek b (c + 30) nameLen) (peek b (c + 30 + nameLen) dataLen),
   seek_fwd b (c + 30 + nameLen + dataLen)).
Proof.
  intros Hc nameLen dataLen.
  match goal with |- _ = ?R => set (rhs := R) end.
  unfold DirItem.Parse. fwd. cbv zeta.
  rewrite <- !Z.add_assoc. cbn [Z.add Pos.add Pos.succ Pos.add_carry].
  fold (clamp (le_combine (peek b (c + 27) 2)) 255).
  fold (clamp (le_combine (peek b (c + 25) 2)) DefaultBlockSize).
  fold nameLen. fold dataLen.
  pose proof (read_range b (c + 27) 2 ltac:(lia)) as Hn.
  pose proof (read_range b (c + 25) 2 ltac:(lia)) as Hd.
  assert (0 <= DefaultBlockSize) as Hblock by (vm_compute; discriminate).
  pose proof (clamp_range (le_combine (peek b (c + 27) 2)) 255
                ltac:(lia) ltac:(lia)) as [Hcn _]. fold nameLen in Hcn.
  pose proof (clamp_range (le_combine (peek b (c + 25) 2)) DefaultBlockSize
                ltac:(lia) Hblock) as [Hcd _]. fold dataLen in Hcd.
  rewrite Next_fwd by lia. cbv beta iota.
  rewrite Next_fwd by lia. cbv beta iota.
  subst rhs. reflexivity.
Qed.

(** X9.  [DirItem.Parse], on any buffer: location key at distance 0,
    transaction id at 17, declared data and name lengths at 25 and 27,
    type at 29; the name is the bytes from distance 30 on,
    [min NameLen 255] of them, and the inline data starts right behind the
    name as decoded, at distance [30 + min NameLen 255], with
    [min DataLen 4096] bytes (fewer where the buffer ends); [NameLen] and
    [DataLen] keep the declared values and the cursor ends behind the
    data. *)
Theorem DirItem_Parse_layout (i : DirItem.t) (b : ParseBuffer.t) :
  let r := fst (DirItem.Parse i b) in
  let n := Z.min (DirItem.NameLen r) 255 in
  let d := Z.min (DirItem.DataLen r) 4096 in
  DirItem.Location r = keyAt b 0 /\
  DirItem.TransId r = le_combine (peek b 17 8) /\
  DirItem.DataLen r = le_combine (peek b 25 2) /\
  DirItem.NameLen r = le_combine (peek b 27 2) /\
  DirItem.Type_ r = le_combine (peek b 29 1) /\
  DirItem.Name r = peek b 30 n /\
  DirItem.Data r = peek b (30 + n) d /\
  Offset (snd (DirItem.Parse i b)) = Offset b + Z.min (30 + n + d) (Unread b).
Proof.
  intros r n d. subst r n d.
  pose proof (DirItem_Parse_fwd i b 0 ltac:(lia)) as H. at_cursor0 H.
  cbv zeta in H. rewrite H.
  cbn [fst snd DirItem.Location DirItem.TransId DirItem.DataLen
       DirItem.NameLen DirItem.Type_ DirItem.Name DirItem.Data].
  pose proof (read_range b 27 2 ltac:(lia)) as Hn.
  pose proof (read_range b 25 2 ltac:(lia)) as Hd.
  assert (DefaultBlockSize = 4096) as Hblock by reflexivity.
  destruct (clamp_range (le_combine (peek b 27 2)) 255 ltac:(lia) ltac:(lia))
    as [Hcn ->].
  destruct (clamp_range (le_combine (peek b 25 2)) DefaultBlockSize
              ltac:(lia) ltac:(lia)) as [Hcd ->].
  rewrite Offset_seek_fwd by lia. rewrite Hblock.
  repeat split; reflexivity.
Qed.

Lemma RootRef_Parse_fwd (i : RootRef.t) (b : ParseBuffer.t) (c : Z) :
  0 <= c ->
  RootRef.Parse i (seek_fwd b c) =
  (RootRef.mk (le_combine (peek b c 8)) (le_combine (peek b (c + 8) 8))
     (le_combine (peek b (c + 16) 2))
     (peek b (c + 18) (clamp (le_combine (peek b (c + 16) 2)) 255)),
   seek_fwd b (c + 18 + clamp (le_combine (peek b (c + 16) 2)) 255)).
Proof.
  intros Hc.
  match goal with |- _ = ?R => set (rhs := R) end.
  unfold RootRef.Parse. fwd. cbv zeta.
  rewrite <- !Z.add_assoc. cbn [Z.add Pos.add Pos.succ Pos.add_carry].
  fold (clamp (le_combine (peek b (c + 16) 2)) 255).
  pose proof (read_range b (c + 16) 2 ltac:(lia)) as Hr.
  pose proof (clamp_range (le_combine (peek b (c + 16) 2)) 255
                ltac:(lia) ltac:(lia)) as [Hcl _].
  rewrite Next_fwd by lia. cbv beta iota.
  subst rhs. reflexivity.
Qed.

(** X10.  [RootRef.Parse], on any buffer: directory id and sequence at
    distances 0 and 8, the declared name length at 16, kept in [NameLen],
    and the name is the bytes from distance 18 on, [min NameLen 255] of
    them or as many as the buffer still has; the cursor ends behind the
    name. *)
Theorem RootRef_Parse_layout (i : RootRef.t) (b : ParseBuffer.t) :
  let r := fst (RootRef.Parse i b) in
  let n := Z.min (RootRef.NameLen r) 255 in
  RootRef.DirId r = le_combine (peek b 0 8) /\
  RootRef.Sequence r = le_combine (peek b 8 8) /\
  RootRef.NameLen r = le_combine (peek b 16 2) /\
  RootRef.Name r = peek b 18 n /\
  Z.of_nat (length (RootRef.Name r)) = Z.min n (Z.max 0 (Unread b - 18)) /\
  Offset (snd (RootRef.Parse i b)) = Offset b + Z.min (18 + n) (Unread b).
Proof.
  intros r n. subst r n.
  pose proof (RootRef_Parse_fwd i b 0 ltac:(lia)) as H. at_cursor0 H.
  rewrite H. cbn [fst snd RootRef.DirId RootRef.Sequence RootRef.NameLen
                  RootRef.Name].
  pose proof (read_range b 16 2 ltac:(lia)) as Hr.
  destruct (clamp_range (le_combine (peek b 16 2)) 255 ltac:(lia) ltac:(lia))
    as [Hcl ->].
  rewrite Offset_seek_fwd, peek_length_eq by lia.
  repeat split; reflexivity.
Qed.

(** ** Payload dispatch *)

Lemma fresh_known (type : Z) :
  In type knownTags -> Item.fresh type <> None.
Proof.
  unfold knownTags. cbn [In]. intros H.
  repeat (destruct H as [H|H]; [subst type; discriminate|]).
  contradiction.
Qed.

Lemma ParseData_descriptor (i : Item.t) (b : ParseBuffer.t) :
  Item.Key (fst (Item.ParseData i b)) = Item.Key i /\
  Item.Offset (fst (Item.ParseData i b)) = Item.Offset i /\
  Item.Size (fst (Item.ParseData i b)) = Item.Size i.
Proof.
  unfold Item.ParseData. destruct (Item.fresh _) as [d|].
  - unfold bind, ret. destruct (itemData_Parse d b) as [d' b'].
    repeat split; reflexivity.
  - repeat split; reflexivity.
Qed.

(** X11.  [Item.ParseData] never touches the descriptor: key, offset and
    size come back as they went in, for every item, tag and buffer.  For a
    known tag the payload it stores has the shape the tag stands for, and
    no other: xattr items, directory items and directory indexes all give
    a directory item, root refs and root backrefs a root ref, the seven
    other known tags one shape each.  For any other tag the item keeps
    the payload it came with; so an item that comes without payload still
    has none afterwards exactly when its tag is none of the twelve. *)
Theorem ParseData_dispatch (i : Item.t) (b : ParseBuffer.t) :
  let r := fst (Item.ParseData i b) in
  let type := Key.Type_ (Item.Key i) in
  Item.Key r = Item.Key i /\ Item.Offset r = Item.Offset i /\
  Item.Size r = Item.Size i /\
  (In type knownTags ->
   match Item.Data r with
   | Some (InodeItemData _) => type = InodeItemKey
   | Some (InodeRefItemData _) => type = InodeRefKey
   | Some (DirItemData _) =>
       type = XAttrItemKey \/ type = DirItemKey \/ type = DirIndexKey
   | Some (FileExtentItemData _) => type = ExtentDataKey
   | Some (CSumItemData _) => type = ExtentCSumKey
   | Some (RootItemData _) => type = RootItemKey
   | Some (RootRefData _) => type = RootBackRefKey \/ type = RootRefKey
   | Some (ExtentItemData _) => type = ExtentItemKey
   | Some (BlockGroupItemData _) => type = BlockGroupItemKey
   | None => False
   end) /\
  (~ In type knownTags -> Item.Data r = Item.Data i) /\
  (Item.Data i = None -> (Item.Data r = None <-> ~ In type knownTags)).
Proof.
  intros r type. subst r.
  destruct (ParseData_descriptor i b) as (Hk & Ho & Hs).
  split; [exact Hk|]. split; [exact Ho|]. split; [exact Hs|].
  assert (In type knownTags ->
          match Item.Data (fst (Item.ParseData i b)) with
          | Some (InodeItemData _) => type = InodeItemKey
          | Some (InodeRefItemData _) => type = InodeRefKey
          | Some (DirItemData _) =>
              type = XAttrItemKey \/ type = DirItemKey \/ type = DirIndexKey
          | Some (FileExtentItemData _) => type = ExtentDataKey
          | Some (CSumItemData _) => type = ExtentCSumKey
          | Some (RootItemData _) => type = RootItemKey
          | Some (RootRefData _) => type = RootBackRefKey \/ type = RootRefKey
          | Some (ExtentItemData _) => type = ExtentItemKey
          | Some (BlockGroupItemData _) => type = BlockGroupItemKey
          | None => False
          end) as Hshape.
  { intros Hknown. unfold Item.ParseData. fold type. unfold Item.fresh.
    repeat match goal with
    | |- context [if ?c then _ else _] =>
        let E := fresh "E" in destruct c eqn:E
    end;
    try (unfold bind, ret; cbn [itemData_Parse]; unfold bind, ret;
         match goal with
         | |- context [let (_, _) := ?m ?c in _] => destruct (m c) as [? ?]
         end;
         cbn [fst Item.Data];
         repeat match goal with
         | H : (_ || _) = true |- _ =>
             apply orb_prop in H; destruct H as [H|H]
         | H : (_ =? _) = true |- _ => apply Z.eqb_eq in H
         end; tauto).
    exfalso. unfold knownTags in Hknown. cbn [In] in Hknown.
    repeat match goal with
    | H : (_ || _) = false |- _ => apply orb_false_elim in H; destruct H
    | H : (_ =? _) = false |- _ => apply Z.eqb_neq in H
    end.
    repeat (destruct Hknown as [Hknown|Hknown]; [congruence|]).
    exact Hknown. }
  assert (~ In type knownTags ->
          Item.Data (fst (Item.ParseData i b)) = Item.Data i) as Hkeep.
  { intros Hunknown. now rewrite ParseData_unknown. }
  split; [exact Hshape|]. split; [exact Hkeep|].
  intros Hnone. split.
  - intros Hr Hknown. specialize (Hshape Hknown). now rewrite Hr in Hshape.
  - intros Hunknown. now rewrite Hkeep.
Qed.

Lemma ParseData_dispatch_witness :
  let i := Item.mk (Key.mk 256 DirIndexKey 2) 0 4096
                   (Some (CSumItemData (CSumItem.mk 9))) in
  let b := ParseBuffer.mk sampleDirItem 0 in
  In (Key.Type_ (Item.Key i)) knownTags /\
  Item.Size (fst (Item.ParseData i b)) = 4096 /\
  exists d, Item.Data (fst (Item.ParseData i b)) = Some (DirItemData d) /\
            length (DirItem.Name d) = 255%nat.
Proof.
  intros i b.
  assert (In (Key.Type_ (Item.Key i)) knownTags) as Hin.
  { unfold knownTags. cbn [In Item.Key Key.Type_ i]. tauto. }
  split; [exact Hin|].
  pose proof (ParseData_dispatch i b) as (_ & _ & Hs & H & _).
  split; [exact Hs|]. specialize (H Hin).
  destruct (Item.Data (fst (Item.ParseData i b))) as [[| |d| | | | | |]|] eqn:E;
    try (exfalso; vm_compute in H; intuition discriminate).
  exists d. split; [reflexivity|].
  vm_compute in E. injection E as <-. reflexivity.
Defined.

(** X12.  What a known item's payload becomes is decided by its type tag
    and the cursor alone: two items with the same known tag get the same
    payload from the same cursor, whatever their object ids, key offsets,
    sizes and previous payloads; in the payload loop of [Leaf.Parse] the
    cursor in turn is decided by the data offset, so the declared size of
    an item is never consulted. *)
Theorem payload_decided_by_tag (i j : Item.t) (headerEnd : Z)
    (b : ParseBuffer.t) :
  In (Key.Type_ (Item.Key i)) knownTags ->
  Key.Type_ (Item.Key i) = Key.Type_ (Item.Key j) ->
  (Item.Data (fst (Item.ParseData i b)) = Item.Data (fst (Item.ParseData j b))
   /\ snd (Item.ParseData i b) = snd (Item.ParseData j b)) /\
  (Item.Offset i = Item.Offset j ->
   Item.Data (fst (Leaf.resolve headerEnd i b)) =
   Item.Data (fst (Leaf.resolve headerEnd j b))).
Proof.
  intros Hknown Htype.
  assert (forall c, Item.Data (fst (Item.ParseData i c)) =
                    Item.Data (fst (Item.ParseData j c)) /\
                    snd (Item.ParseData i c) = snd (Item.ParseData j c)) as H.
  { intros c. unfold Item.ParseData. rewrite <- Htype.
    pose proof (fresh_known _ Hknown) as Hf.
    destruct (Item.fresh (Key.Type_ (Item.Key i))) as [d|]; [|contradiction].
    unfold bind, ret. destruct (itemData_Parse d c) as [d' c'].
    split; reflexivity. }
  split; [apply H|].
  intros Hoff. unfold Leaf.resolve, Leaf.seekTarget. rewrite Hoff.
  apply H.
Qed.

Lemma payload_decided_by_tag_witness :
  let i := Item.mk (Key.mk 256 DirIndexKey 2) 0 0 None in
  let j := Item.mk (Key.mk 999 DirIndexKey 7) 0 4096
                   (Some (CSumItemData (CSumItem.mk 9))) in
  let b := ParseBuffer.mk sampleDirItem 0 in
  In (Key.Type_ (Item.Key i)) knownTags /\
  Key.Type_ (Item.Key i) = Key.Type_ (Item.Key j) /\
  Item.Data (fst (Item.ParseData i b)) = Item.Data (fst (Item.ParseData j b)).
Proof.
  intros i j b.
  assert (In (Key.Type_ (Item.Key i)) knownTags) as H1.
  { unfold knownTags. cbn [In Item.Key Key.Type_ i]. tauto. }
  split; [exact H1|]. split; [reflexivity|].
  exact (proj1 (proj1 (payload_decided_by_tag i j 0 b H1 eq_refl))).
Defined.

(** ** The two passes of the leaf decoder *)

Lemma forEach_Item_Parse_fwd (b : ParseBuffer.t) (n : nat) :
  forall c, 0 <= c ->
  forEach Item.Parse (repeat Item.zero n) (seek_fwd b c) =
  (map (fun k => itemAt None b (c + 25 * Z.of_nat k)) (seq 0 n),
   seek_fwd b (c + 25 * Z.of_nat n)).
Proof.
  induction n as [|n IH]; intros c Hc.
  - cbn [repeat forEach seq map]. unfold ret. do 2 f_equal. lia.
  - cbn [repeat forEach]. unfold bind at 1.
    rewrite Item_Parse_fwd by exact Hc. cbv beta iota.
    unfold bind at 1. rewrite IH by lia. unfold ret.
    cbn [seq map Item.Data Item.zero]. f_equal.
    + f_equal.
      * unfold itemAt, keyAt. repeat (f_equal; try lia).
      * rewrite <- seq_shift, map_map. apply map_ext. intros k.
        f_equal. lia.
    + f_equal. lia.
Qed.

Lemma descriptors_closed (l : Leaf.t) (b : ParseBuffer.t) :
  descriptors l b =
  map (fun k => itemAt None b (25 * Z.of_nat k))
      (seq 0 (Z.to_nat (Leaf.numItems l b))).
Proof.
  unfold descriptors.
  pose proof (forEach_Item_Parse_fwd b (Z.to_nat (Leaf.numItems l b)) 0
                ltac:(lia)) as H.
  rewrite seek_fwd_0 in H. rewrite H. cbn [fst].
  apply map_ext. intros k. f_equal.
Qed.

Lemma Leaf_item_descriptor (l : Leaf.t) (b : ParseBuffer.t) (k : nat)
    (it : Item.t) :
  Header.NrItems (Leaf.Header l) <> 0 ->
  nth_error (Leaf.Items (fst (Leaf.Parse l b))) k = Some it ->
  Z.of_nat k < Leaf.numItems l b /\
  nth_error (descriptors l b) k = Some (itemAt None b (25 * Z.of_nat k)) /\
  it = fst (Leaf.resolve (uint32 (Offset b))
              (itemAt None b (25 * Z.of_nat k)) b).
Proof.
  intros Hn Hk. rewrite Leaf_Parse_Items in Hk by exact Hn.
  rewrite nth_error_map in Hk.
  rewrite descriptors_closed in *. rewrite nth_error_map, nth_error_seq in *.
  destruct (Nat.ltb_spec k (Z.to_nat (Leaf.numItems l b))) as [Hlt|Hge];
    cbn [option_map Nat.add] in *; [|discriminate].
  injection Hk as <-. repeat split. lia.
Qed.

(** X13.  The first pass of [Leaf.Parse]: item [k] of a decoded leaf
    carries the key, data offset and size found in the 25 bytes at
    distance [25 * k] of the cursor at entry, the data offset within 32
    bits; and those 25 bytes all lie inside the buffer, so that no
    descriptor is ever made up from a truncated read. *)
Theorem Leaf_Parse_descriptor_layout (l : Leaf.t) (b : ParseBuffer.t)
    (k : nat) (it : Item.t) :
  Header.NrItems (Leaf.Header l) <> 0 ->
  nth_error (Leaf.Items (fst (Leaf.Parse l b))) k = Some it ->
  Item.Key it = keyAt b (25 * Z.of_nat k) /\
  Item.Offset it = le_combine (peek b (25 * Z.of_nat k + 17) 4) /\
  Item.Size it = le_combine (peek b (25 * Z.of_nat k + 21) 4) /\
  0 <= Item.Offset it < 2 ^ 32 /\
  25 * Z.of_nat k + 25 <= Unread b /\
  length (peek b (25 * Z.of_nat k) 25) = 25%nat.
Proof.
  intros Hn Hk.
  destruct (Leaf_item_descriptor l b k it Hn Hk) as (Hlt & _ & ->).
  unfold Leaf.resolve.
  destruct (ParseData_descriptor (itemAt None b (25 * Z.of_nat k))
    (SetOffset (Leaf.seekTarget (uint32 (Offset b))
                  (itemAt None b (25 * Z.of_nat k))) b)) as (-> & -> & ->).
  cbn [itemAt Item.Key Item.Offset Item.Size].
  pose proof (numItems_le_maxItems l b) as Hmax.
  pose proof (Unread_nonneg b) as HU.
  assert (25 * Z.of_nat k + 25 <= Unread b) as Hin.
  { pose proof (Z.mul_div_le (Unread b) 25 ltac:(lia)). lia. }
  pose proof (read_range b (25 * Z.of_nat k + 17) 4 ltac:(lia)).
  repeat split; try lia.
  rewrite peek_full by lia. reflexivity.
Qed.

Lemma Leaf_Parse_descriptor_layout_witness :
  let l := parsedHeader (sampleBlock InodeItemKey 25 160 []) in
  let b := afterHeader (sampleBlock InodeItemKey 25 160 []) in
  let it := Item.mk (Key.mk 256 InodeItemKey 0) 25 160
                    (Some (InodeItemData inodeAtEnd)) in
  Header.NrItems (Leaf.Header l) <> 0 /\
  nth_error (Leaf.Items (fst (Leaf.Parse l b))) 0 = Some it /\
  Item.Key it = keyAt b 0 /\ 25 <= Unread b.
Proof.
  intros l b it.
  assert (Header.NrItems (Leaf.Header l) <> 0) as H1
    by (vm_compute; discriminate).
  assert (nth_error (Leaf.Items (fst (Leaf.Parse l b))) 0 = Some it) as H2
    by (vm_compute; reflexivity).
  split; [exact H1|]. split; [exact H2|].
  destruct (Leaf_Parse_descriptor_layout l b 0%nat it H1 H2)
    as (Hkey & _ & _ & _ & Hin & _).
  split; [exact Hkey|exact Hin].
Defined.

Lemma SetOffset_inside (o : Z) (b : ParseBuffer.t) :
  0 <= o <= Z.of_nat (length (buf b)) ->
  SetOffset o b = seek_fwd (start b) o.
Proof.
  intros H. unfold SetOffset, seek_fwd, start, unread. cbn [buf offset skipn].
  f_equal. lia.
Qed.

Lemma InodeItem_Parse_at (o : Z) (b : ParseBuffer.t) :
  0 <= o ->
  fst (InodeItem.Parse InodeItem.zero (SetOffset o b)) =
  inodeAt InodeItem.zero (start b) o.
Proof.
  intros Ho. destruct (Z.le_gt_cases o (Z.of_nat (length (buf b)))) as [H|H].
  - rewrite SetOffset_inside by lia.
    now rewrite InodeItem_Parse_fwd by lia.
  - rewrite InodeItem_Parse_exhausted
      by (apply unread_SetOffset_past_end; lia).
    cbn [fst]. unfold inodeAt, timeAt.
    assert (Unread (start b) = Z.of_nat (length (buf b))) as HU.
    { unfold Unread, unread, start. cbn [buf offset skipn]. reflexivity. }
    rewrite !peek_past_end by lia. reflexivity.
Qed.

(** X14.  The second pass of [Leaf.Parse], for inode items: an item of a
    decoded leaf whose tag is the inode item tag carries the inode item
    decoded from the 160 bytes that begin at the absolute offset
    [(headerEnd + dataOffset) mod 2^32] of the block, [headerEnd] being
    the cursor at entry; where it is found depends on neither the item's
    position in the leaf nor its declared size. *)
Theorem Leaf_Parse_inode_payload (l : Leaf.t) (b : ParseBuffer.t) (k : nat)
    (it : Item.t) :
  Header.NrItems (Leaf.Header l) <> 0 ->
  nth_error (Leaf.Items (fst (Leaf.Parse l b))) k = Some it ->
  Key.Type_ (Item.Key it) = InodeItemKey ->
  Item.Data it =
  Some (InodeItemData
          (inodeAt InodeItem.zero (start b)
             ((uint32 (Offset b) + Item.Offset it) mod 2 ^ 32))).
Proof.
  intros Hn Hk Htype.
  destruct (Leaf_item_descriptor l b k it Hn Hk) as (_ & _ & Hit).
  set (d := itemAt None b (25 * Z.of_nat k)) in *.
  set (c := SetOffset (Leaf.seekTarget (uint32 (Offset b)) d) b).
  assert (it = fst (Item.ParseData d c)) as Hit' by exact Hit.
  destruct (ParseData_descriptor d c) as (Hkey & Hoff & _).
  rewrite <- Hit' in Hkey, Hoff. rewrite Hkey in Htype. rewrite Hoff.
  rewrite Hit'. unfold Item.ParseData. rewrite Htype.
  change (Item.fresh InodeItemKey) with (Some (InodeItemData InodeItem.zero)).
  cbn [itemData_Parse]. unfold bind, ret.
  pose proof (InodeItem_Parse_at (Leaf.seekTarget (uint32 (Offset b)) d) b)
    as Hat.
  fold c in Hat.
  destruct (InodeItem.Parse InodeItem.zero c) as [inode c'].
  cbn [fst Item.Data] in *. rewrite Hat; [reflexivity|].
  unfold Leaf.seekTarget, uint32. apply Z.mod_pos_bound. lia.
Qed.

Lemma Leaf_Parse_inode_payload_witness :
  let bytes := sampleBlock InodeItemKey 25 160
                 (le_split 8 7 ++ repeat Byte.x00 152) in
  let l := parsedHeader bytes in
  let b := afterHeader bytes in
  let it := Item.mk (Key.mk 256 InodeItemKey 0) 25 160
              (Some (InodeItemData
                       (InodeItem.mk 7 0 0 0 0 0 0 0 0 0 0 0 (repeat 0 4)
                                     epoch epoch epoch epoch))) in
  Header.NrItems (Leaf.Header l) <> 0 /\
  nth_error (Leaf.Items (fst (Leaf.Parse l b))) 0 = Some it /\
  Key.Type_ (Item.Key it) = InodeItemKey /\
  Item.Data it = Some (InodeItemData (inodeAt InodeItem.zero (start b) 126)).
Proof.
  intros bytes l b it.
  assert (Header.NrItems (Leaf.Header l) <> 0) as H1
    by (vm_compute; discriminate).
  assert (nth_error (Leaf.Items (fst (Leaf.Parse l b))) 0 = Some it) as H2
    by (vm_compute; reflexivity).
  split; [exact H1|]. split; [exact H2|]. split; [reflexivity|].
  exact (Leaf_Parse_inode_payload l b 0%nat it H1 H2 eq_refl).
Defined.

(** X15.  What [Leaf.Parse] does with the items a leaf already holds: when
    the header declares no item they are kept as they are, a reused leaf
    is not cleared; when it declares some they play no part, the decoded
    leaf and the cursor are the same whatever the leaf held before. *)
Theorem Leaf_Parse_previous_items (h : Header.t) (old1 old2 : list Item.t)
    (b : ParseBuffer.t) :
  (Header.NrItems h = 0 ->
   Leaf.Items (fst (Leaf.Parse (Leaf.mk h old1) b)) = old1) /\
  (Header.NrItems h <> 0 ->
   Leaf.Parse (Leaf.mk h old1) b = Leaf.Parse (Leaf.mk h old2) b).
Proof.
  split.
  - intros H0. rewrite Leaf_Parse_zero by exact H0. reflexivity.
  - intros Hn. unfold Leaf.Parse. cbn [Leaf.Header].
    apply Z.eqb_neq in Hn. rewrite Hn. reflexivity.
Qed.

Lemma Leaf_Parse_previous_items_witness :
  let stale := [Item.mk (Key.mk 1 InodeItemKey 0) 0 0 None] in
  let b := afterHeader (sampleBlock InodeItemKey 25 160 []) in
  Header.NrItems (headerOf 0) = 0 /\ Header.NrItems (headerOf 1) <> 0 /\
  Leaf.Items (fst (Leaf.Parse (Leaf.mk (headerOf 0) stale) b)) = stale /\
  Leaf.Parse (Leaf.mk (headerOf 1) stale) b =
  Leaf.Parse (Leaf.mk (headerOf 1) []) b.
Proof.
  intros stale b.
  assert (Header.NrItems (headerOf 1) <> 0) as H1
    by (vm_compute; discriminate).
  split; [reflexivity|]. split; [exact H1|]. split.
  - exact (proj1 (Leaf_Parse_previous_items (headerOf 0) stale [] b) eq_refl).
  - exact (proj2 (Leaf_Parse_previous_items (headerOf 1) stale [] b) H1).
Defined.

(** ** A block decoded from its first byte *)

Lemma peek_seek_fwd (b : ParseBuffer.t) (c k n : Z) :
  0 <= c -> 0 <= k -> peek (seek_fwd b c) k n = peek b (c + k) n.
Proof.
  intros Hc Hk. unfold peek. rewrite unread_seek_fwd, skipn_skipn.
  do 2 f_equal. lia.
Qed.

Lemma Unread_seek_fwd (b : ParseBuffer.t) (c : Z) :
  0 <= c -> Unread (seek_fwd b c) = Z.max 0 (Unread b - c).
Proof.
  intros Hc. unfold Unread. rewrite unread_seek_fwd, length_skipn. lia.
Qed.

(** X16.  [Header.Parse] followed by [Leaf.Parse], on a block of at least
    101 and fewer than [2^32] bytes decoded from its first byte:
    [headerEnd] is 101, the leaf has [min n ((len - 101) / 25)] items where
    [n] is the 32-bit count at offset 96 of the block, and item [k]
    carries the key, data offset and size found at offset [101 + 25 * k]
    of the block. *)
Theorem Header_then_Leaf (bytes : list byte) :
  101 <= Z.of_nat (length bytes) < 2 ^ 32 ->
  let b0 := ParseBuffer.mk bytes 0 in
  let hb := Header.Parse Header.zero b0 in
  let leaf := fst (Leaf.Parse (Leaf.mk (fst hb) []) (snd hb)) in
  Offset (snd hb) = 101 /\
  Leaf.Header leaf = fst hb /\
  Z.of_nat (length (Leaf.Items leaf)) =
    Z.min (le_combine (peek b0 96 4)) ((Z.of_nat (length bytes) - 101) / 25) /\
  forall k it, nth_error (Leaf.Items leaf) k = Some it ->
    Item.Key it = keyAt b0 (101 + 25 * Z.of_nat k) /\
    Item.Offset it = le_combine (peek b0 (101 + 25 * Z.of_nat k + 17) 4) /\
    Item.Size it = le_combine (peek b0 (101 + 25 * Z.of_nat k + 21) 4) /\
    101 + 25 * Z.of_nat k + 25 <= Z.of_nat (length bytes).
Proof.
  intros Hlen b0 hb leaf. subst hb leaf.
  assert (Unread b0 = Z.of_nat (length bytes)) as HU0 by reflexivity.
  pose proof (Header_Parse_fwd Header.zero b0 0 ltac:(lia)) as H.
  at_cursor H. rewrite H. cbn [fst snd].
  set (h := Header.mk _ _ _ _ _ _ _ _ _).
  set (b := seek_fwd b0 101).
  assert (Header.NrItems h = le_combine (peek b0 96 4)) as Hnr by reflexivity.
  assert (Unread b = Z.of_nat (length bytes) - 101) as HU.
  { unfold b. rewrite Unread_seek_fwd by lia. lia. }
  pose proof (read_range b0 96 4 ltac:(lia)) as Hr.
  split; [unfold b; rewrite Offset_seek_fwd by lia;
          unfold Offset; cbn [offset b0]; lia|].
  split; [apply Leaf_Parse_Header|].
  destruct (Z.eq_dec (Header.NrItems h) 0) as [Hz|Hnz].
  - rewrite Leaf_Parse_zero by exact Hz. cbn [fst Leaf.Items length].
    rewrite <- Hnr, Hz.
    assert (0 <= (Z.of_nat (length bytes) - 101) / 25)
      by (apply Z.div_pos; lia).
    split; [lia|]. intros k it Hk. destruct k; discriminate Hk.
  - split.
    + rewrite Leaf_Parse_count by exact Hnz.
      rewrite numItems_min.
      * cbn [Leaf.Header]. rewrite HU, Hnr.
        assert (0 <= (Z.of_nat (length bytes) - 101) / 25)
          by (apply Z.div_pos; lia).
        lia.
      * rewrite HU.
        apply Z.div_lt_upper_bound; lia.
    + intros k it Hk.
      destruct (Leaf_item_descriptor (Leaf.mk h []) b k it Hnz Hk)
        as (Hlt & _ & ->).
      unfold Leaf.resolve.
      destruct (ParseData_descriptor (itemAt None b (25 * Z.of_nat k))
        (SetOffset (Leaf.seekTarget (uint32 (Offset b))
                      (itemAt None b (25 * Z.of_nat k))) b))
        as (-> & -> & ->).
      cbn [itemAt Item.Key Item.Offset Item.Size]. unfold keyAt, b.
      rewrite !peek_seek_fwd by lia.
      pose proof (numItems_le_maxItems (Leaf.mk h []) b) as Hmax.
      pose proof (Z.mul_div_le (Unread b) 25 ltac:(lia)).
      rewrite !Z.add_assoc.
      repeat split; lia.
Qed.

Lemma Header_then_Leaf_witness :
  let bytes := sampleBlock InodeItemKey 25 160 [] in
  let hb := Header.Parse Header.zero (ParseBuffer.mk bytes 0) in
  101 <= Z.of_nat (length bytes) < 2 ^ 32 /\
  Z.of_nat (length (Leaf.Items
     (fst (Leaf.Parse (Leaf.mk (fst hb) []) (snd hb))))) = 1.
Proof.
  intros bytes hb.
  assert (101 <= Z.of_nat (length bytes) < 2 ^ 32) as H
    by (split; vm_compute; [discriminate|reflexivity]).
  split; [exact H|].
  destruct (Header_then_Leaf bytes H) as (_ & _ & Hcount & _).
  subst hb. rewrite Hcount. reflexivity.
Defined.

(** ** Object ids *)

(** X17.  The object ids written as [^uint64(n) + 1] are the 64-bit
    two's complements [2^64 - n]; the range of file object ids runs from
    256 to [2^64 - 256]; and none of the eighteen ids the package names
    for trees and special objects falls inside it: the tree ids lie
    below, the negated ones above. *)
Theorem object_id_ranges :
  (forall n, 0 < n < 2 ^ 64 -> negated n = 2 ^ 64 - n) /\
  FirstFreeObjectId = 256 /\ LastFreeObjectId = 2 ^ 64 - 256 /\
  (forall id, In id wellKnownObjectIds ->
     0 < id < 2 ^ 64 /\
     ~ (FirstFreeObjectId <= id <= LastFreeObjectId)).
Proof.
  assert (forall n, 0 < n < 2 ^ 64 -> negated n = 2 ^ 64 - n) as Hneg.
  { intros n Hn. unfold negated, uint64, Z.lnot.
    replace (Z.pred (- n)) with (2 ^ 64 - n - 1 + (-1) * 2 ^ 64) by lia.
    rewrite Z.mod_add by lia.
    rewrite (Z.mod_small (2 ^ 64 - n - 1)) by lia.
    rewrite Z.mod_small by lia. lia. }
  split; [exact Hneg|]. split; [reflexivity|]. split; [reflexivity|].
  intros id Hin. unfold wellKnownObjectIds in Hin. cbn [In] in Hin.
  repeat (destruct Hin as [<-|Hin]; [vm_compute; intuition discriminate|]).
  contradiction.
Qed.

Lemma object_id_ranges_witness :
  0 < 5 < 2 ^ 64 /\ In OrphanObjectId wellKnownObjectIds /\
  OrphanObjectId = 2 ^ 64 - 5 /\
  ~ (FirstFreeObjectId <= OrphanObjectId <= LastFreeObjectId).
Proof.
  assert (0 < 5 < 2 ^ 64) as H by (split; reflexivity).
  assert (In OrphanObjectId wellKnownObjectIds) as Hin.
  { unfold wellKnownObjectIds. cbn [In]. tauto. }
  split; [exact H|]. split; [exact Hin|].
  destruct object_id_ranges as (Hneg & _ & _ & Hall).
  split; [exact (Hneg 5 H)|exact (proj2 (Hall _ Hin))].
Defined.

(** ** Blocks too short for a header *)

(** X18.  A block that ends before the item count, 96 unread bytes or
    fewer, is decoded without complaint as an empty leaf: [Header.Parse]
    reads the count and the level as 0 and stops at the end of the buffer,
    and [Leaf.Parse] on the resulting header returns at once, adding no
    item and leaving the cursor where it is. *)
Theorem short_block_is_empty_leaf (h : Header.t) (old : list Item.t)
    (b : ParseBuffer.t) :
  Unread b <= 96 ->
  let hb := Header.Parse h b in
  Header.NrItems (fst hb) = 0 /\
  Header.Level (fst hb) = 0 /\
  Header.IsLeaf (fst hb) = true /\
  Offset (snd hb) = Offset b + Unread b /\
  Unread (snd hb) = 0 /\
  Leaf.Parse (Leaf.mk (fst hb) old) (snd hb) = (Leaf.mk (fst hb) old, snd hb).
Proof.
  intros HU hb. subst hb.
  pose proof (Unread_nonneg b) as H0.
  pose proof (Header_Parse_fwd h b 0 ltac:(lia)) as H. at_cursor H.
  rewrite H. cbn [fst snd]. unfold Header.IsLeaf.
  cbn [Header.NrItems Header.Level].
  rewrite !peek_past_end by lia. cbn [le_combine Z.eqb].
  rewrite Unread_seek_fwd, Offset_seek_fwd by lia.
  repeat split; try reflexivity; try lia.
Qed.

Lemma short_block_is_empty_leaf_witness :
  let b := ParseBuffer.mk (repeat Byte.xff 96) 0 in
  Unread b <= 96 /\
  Header.NrItems (fst (Header.Parse Header.zero b)) = 0 /\
  Offset (snd (Header.Parse Header.zero b)) = 96.
Proof.
  intros b.
  assert (Unread b <= 96) as H by (vm_compute; discriminate).
  split; [exact H|].
  destruct (short_block_is_empty_leaf Header.zero [] b H)
    as (Hn & _ & _ & Ho & _).
  split; [exact Hn|]. rewrite Ho. reflexivity.
Defined.

(** ** The generation gate on root items as laid out on disk *)

(** C5.  On a root item laid out in the order of the struct, with both
    generations 5 and a filled extension block, [RootItem.Parse] does not
    do what the claim says.  The payload's second generation lies at
    distance 239, but the word the decoder compares is the one at distance
    231 (the end of the drop-progress key and the two levels), here 0:
    the decoded generations differ although the payload's are equal, the
    UUIDs and transaction ids stay zero although the payload has them, and
    the cursor stops at distance 239, in front of the second generation,
    not behind it (247) nor behind the extension block (391). *)
Theorem RootItem_Parse_misses_extension :
  let b := ParseBuffer.mk (diskRootItem 5 0 5) 0 in
  let r := fst (RootItem.Parse RootItem.zero b) in
  Unread b = 391 /\
  le_combine (peek b 160 8) = 5 /\ le_combine (peek b 239 8) = 5 /\
  peek b 247 16 = repeat Byte.x11 16 /\ le_combine (peek b 295 8) = 1 /\
  RootItem.Generation r = 5 /\ RootItem.GenerationV2 r = 0 /\
  RootItem.UUID r = uuid.zero /\ RootItem.ParentUUID r = uuid.zero /\
  RootItem.ReceivedUUID r = uuid.zero /\
  RootItem.CTransId r = 0 /\ RootItem.OTransId r = 0 /\
  RootItem.STransId r = 0 /\ RootItem.RTransId r = 0 /\
  Offset (snd (RootItem.Parse RootItem.zero b)) = 239.
Proof.
  intros b r.
  pose proof (RootItem_Parse_generation_gate b) as (Hg1 & Hg2 & Hgate).
  assert (le_combine (peek b 160 8) = 5) as H160 by (vm_compute; reflexivity).
  assert (le_combine (peek b 231 8) = 0) as H231 by (vm_compute; reflexivity).
  assert (Unread b = 391) as HU by (vm_compute; reflexivity).
  cbv zeta in Hg1, Hg2, Hgate. fold r in Hg1, Hg2, Hgate.
  rewrite Hg1, Hg2, H160, H231 in Hgate. cbn [Z.eqb] in Hgate.
  destruct Hgate as (Hu & Hp & Hr & Hc & Ho & Hs & Ht & _ & Hoff).
  rewrite HU in Hoff.
  repeat split; try assumption; try (vm_compute; reflexivity); congruence.
Qed.

(** The other way round: with generations 5 and 4 in the payload, which
    differ, and a drop-progress offset whose third byte is 5, the word at
    distance 231 is 5 and the gate opens: the decoded UUID is the
    payload's second generation followed by the first half of its UUID. *)
Example RootItem_Parse_gate_opens_wrongly :
  let b := ParseBuffer.mk (diskRootItem 5 (5 * 2 ^ 16) 4) 0 in
  let r := fst (RootItem.Parse RootItem.zero b) in
  le_combine (peek b 160 8) = 5 /\ le_combine (peek b 239 8) = 4 /\
  RootItem.Generation r = 5 /\ RootItem.GenerationV2 r = 5 /\
  RootItem.UUID r = le_split 8 4 ++ repeat Byte.x11 8 /\
  Offset (snd (RootItem.Parse RootItem.zero b)) = 383.
Proof. vm_compute. repeat split; reflexivity. Qed.
